(** * HyperLogLog counter: a shallow embedding of [counter.go]

    The Go package keeps a [Counter] behind a pointer and mutates it in
    place, so the embedding threads an explicit store of counters through
    the pointer-taking operations ([NewCounter], [Add], [Merge]) with a
    small state-and-panic monad.  The read-only methods ([Count],
    [correction], [Error]) are functions of the counter they read.

    Number representation.
    - [uint8], [uint32], [uint64] values are [Z] with the wrap-around
      written out ([wrap8], [wrap32], [wrap64]).
    - Hash bytes are [Byte.byte], so that the 64-bit value decoded from
      the scratch buffer is in range by construction.
    - Finite [float64] values are idealised as real numbers: [+], [*],
      [/], [math.Pow], [math.Log2] and [math.Sqrt] are the exact real
      operations and conversions between integers and floats are exact;
      rounding and overflow are not modelled.  The special values are
      kept where [Count] and [correction] can produce them: [1 / z] is
      plus infinity when the sum [z] is zero, [math.Log10] is minus
      infinity at zero and NaN on a negative argument, and the
      comparisons, the product, the quotient and the difference that
      follow propagate them as binary64 arithmetic does.  A value of
      [F64] is a real number or one of the special values.
    - Module [Binary64] repeats the float code of [alpha], [Count],
      [correction] and [Error] over the kernel's binary64 numbers, with
      [math.Log10] as a parameter; it serves to evaluate concrete inputs
      bit for bit. *)

From Stdlib Require Import Floats.
From Stdlib Require Import ZArith Reals Lra Lia.
From stdpp Require Import base option list vector gmap.

Local Open Scope Z_scope.

(** ** Machine integers *)

Definition wrap8 (z : Z) : Z := z mod 2 ^ 8.
Definition wrap32 (z : Z) : Z := z mod 2 ^ 32.
Definition wrap64 (z : Z) : Z := z mod 2 ^ 64.

(** ** Idealised [math] functions *)

Definition Pow (x y : R) : R := Rpower x y.
Definition Log2 (x : R) : R := (ln x / ln 2)%R.
Definition Sqrt (x : R) : R := sqrt x.

(** A [float64] value: a real number or a special value. *)
Inductive F64 : Type :=
| Finite (x : R)
| PosInf
| NegInf
| NaN.

(** The logarithm in base ten of a positive real number. *)
Definition Rlog10 (x : R) : R := (ln x / ln 10)%R.

(** [math.Log10]: [Log10(0) = -Inf], [Log10(x) = NaN] for [x < 0],
    [Log10(+Inf) = +Inf], [Log10(NaN) = NaN]. *)
Definition Log10 (x : F64) : F64 :=
  match x with
  | Finite r =>
      if Rlt_dec 0 r then Finite (Rlog10 r)
      else if Req_dec_T r 0 then NegInf
      else NaN
  | PosInf => PosInf
  | NegInf => NaN
  | NaN => NaN
  end.

(** [1 / z] for a finite [z] that is not negative; the zero of an empty
    sum is [+0], whose reciprocal is plus infinity. *)
Definition recip (z : R) : F64 :=
  if Req_dec_T z 0 then PosInf else Finite (1 / z).

(** [k * y] for a finite [k]: an infinity takes the sign of the product
    and gives NaN when [k] is zero. *)
Definition fmul (k : R) (y : F64) : F64 :=
  match y with
  | Finite x => Finite (k * x)
  | PosInf => if Rlt_dec 0 k then PosInf else if Rlt_dec k 0 then NegInf else NaN
  | NegInf => if Rlt_dec 0 k then NegInf else if Rlt_dec k 0 then PosInf else NaN
  | NaN => NaN
  end.

(** [y / k] for a finite positive [k]. *)
Definition fdiv (y : F64) (k : R) : F64 :=
  match y with
  | Finite x => Finite (x / k)
  | PosInf => PosInf
  | NegInf => NegInf
  | NaN => NaN
  end.

(** [a - y] for a finite [a]. *)
Definition fsub (a : R) (y : F64) : F64 :=
  match y with
  | Finite x => Finite (a - x)
  | PosInf => NegInf
  | NegInf => PosInf
  | NaN => NaN
  end.

(** [x < k] and [x > k] for a finite [k]: false on NaN. *)
Definition flt (x : F64) (k : R) : bool :=
  match x with
  | Finite r => if Rlt_dec r k then true else false
  | PosInf => false
  | NegInf => true
  | NaN => false
  end.

Definition fgt (x : F64) (k : R) : bool :=
  match x with
  | Finite r => if Rgt_dec r k then true else false
  | PosInf => true
  | NegInf => false
  | NaN => false
  end.

(** [float64(n)] for an unsigned integer [n]. *)
Definition float64 (n : Z) : R := IZR n.

(** [uint64(x)] for a float [x]: truncation toward zero. *)
Definition uint64_of_float (x : R) : Z :=
  if Rle_dec 0 x then Int_part x else - Int_part (- x).

(** ** Errors, panics and results *)

Inductive error : Set :=
| errNumRegistersTooSmall
| errMergeCounterMismatch.

Inductive panic : Set :=
| PanicValue (m : Z)        (* [panic(m)] in [alpha] *)
| IndexOutOfRange           (* slice or array index out of range *)
| SliceBoundsOutOfRange     (* [s[:k]] beyond the capacity *)
| NilDereference.           (* a pointer that is not in the store *)

(** A computation either finishes with a value or panics. *)
Inductive outcome (A : Type) : Type :=
| Done (a : A)
| Panicked (p : panic).
Arguments Done {A} a.
Arguments Panicked {A} p.

(** Go's [(T, error)] return pair. *)
Inductive ret (A : Type) : Type :=
| Ok (a : A)
| Err (e : error).
Arguments Ok {A} a.
Arguments Err {A} e.

Inductive ByteOrder : Set := LittleEndian | BigEndian.

(** ** The counter *)

(** [hash func([]byte, []byte) int]: the function writes through its
    first argument, so the model returns the new contents of [dst]
    together with the [int] result. *)
Definition HashFunc : Type :=
  list Byte.byte -> list Byte.byte -> outcome (list Byte.byte * Z).

(** [type Counter struct]; the field [x] of the source is [c_x] here. *)
Record Counter : Type := mkCounter {
  c_regs : list Z;          (* []uint8 *)
  c_m : Z;                  (* uint64 *)
  c_b : Z;                  (* uint64 *)
  c_alpha : R;              (* float64 *)
  c_hash : option HashFunc; (* a func value, [None] is the nil func *)
  c_hbuf : list Byte.byte   (* []byte *)
}.

Definition set_regs (r : list Z) (c : Counter) : Counter :=
  mkCounter r (c_m c) (c_b c) (c_alpha c) (c_hash c) (c_hbuf c).
Definition set_alpha (a : R) (c : Counter) : Counter :=
  mkCounter (c_regs c) (c_m c) (c_b c) a (c_hash c) (c_hbuf c).
Definition set_hbuf (buf : list Byte.byte) (c : Counter) : Counter :=
  mkCounter (c_regs c) (c_m c) (c_b c) (c_alpha c) (c_hash c) buf.

Definition minNumRegisters : Z := 16.

(** ** The store and its monad *)

(** A [*Counter] is a location of the store.  Every counter owns its two
    slices: [make] gives each a backing array of its own and no slice is
    ever copied from one counter to another, so the arrays live inside
    the record. *)
Abbreviation loc := positive (only parsing).
Abbreviation heap := (gmap positive Counter) (only parsing).

Definition M (A : Type) : Type := heap -> outcome (A * heap).

#[export] Instance M_ret : MRet M := fun A a h => Done (a, h).
#[export] Instance M_bind : MBind M := fun A B f ma h =>
  match ma h with
  | Done (a, h') => f a h'
  | Panicked p => Panicked p
  end.

Definition lift {A} (o : outcome A) : M A := fun h =>
  match o with
  | Done a => Done (a, h)
  | Panicked p => Panicked p
  end.

(** [*c] *)
Definition load (c : loc) : M Counter := fun h =>
  match h !! c with
  | Some cv => Done (cv, h)
  | None => Panicked NilDereference
  end.

(** [*c = cv] *)
Definition store (c : loc) (cv : Counter) : M unit := fun h =>
  Done (tt, <[c := cv]> h).

(** [&Counter{...}] *)
Definition alloc (cv : Counter) : M loc := fun h =>
  let c := fresh (dom h) in Done (c, <[c := cv]> h).

(** [s[i]] *)
Definition index {A} (s : list A) (i : Z) : outcome A :=
  if (0 <=? i) && (i <? Z.of_nat (length s))
  then match s !! Z.to_nat i with
       | Some x => Done x
       | None => Panicked IndexOutOfRange
       end
  else Panicked IndexOutOfRange.

(** [s[:k]] for a slice whose capacity is its length. *)
Definition slice_to {A} (s : list A) (k : nat) : outcome (list A) :=
  if (k <=? length s)%nat then Done (take k s) else Panicked SliceBoundsOutOfRange.

(** ** [numZeroes] *)

(** The loop [for i = 0; i < 64; i += 1] of [numZeroes], entered with
    counter [i]; [fuel] bounds the number of iterations and 65 of them
    are never used up (see [numZeroes_loop_fuel]). *)
Fixpoint numZeroes_loop (fuel : nat) (i : Z) (v : Z) : Z :=
  match fuel with
  | O => i
  | S fuel' =>
      if i <? 64 then
        let mask := Z.shiftr (wrap64 (Z.shiftl 1 63)) i in
        if negb (Z.land v mask =? 0) then i
        else numZeroes_loop fuel' (wrap8 (i + 1)) v
      else i
  end.

Definition numZeroes (v : Z) : Z := numZeroes_loop 65 0 v.

(** ** [alpha] *)

Definition alpha (m : Z) : outcome R :=
  if m <? 16 then Panicked (PanicValue m)
  else if m <=? 32 then Done 0.673%R
  else if m <=? 64 then Done 0.697%R
  else if m <=? 128 then Done 0.709%R
  else Done (0.7213 / (1 + (1.079 / float64 m)))%R.

(** ** [binary.NativeEndian.Uint64] *)

Definition u8 (x : Byte.byte) : Z := Z.of_N (Byte.to_N x).

Definition Uint64 (order : ByteOrder) (bs : list Byte.byte) : outcome Z :=
  match bs with
  | b0 :: b1 :: b2 :: b3 :: b4 :: b5 :: b6 :: b7 :: _ =>
      Done (match order with
            | LittleEndian =>
                Z.lor (u8 b0) (Z.lor (Z.shiftl (u8 b1) 8) (Z.lor (Z.shiftl (u8 b2) 16)
                 (Z.lor (Z.shiftl (u8 b3) 24) (Z.lor (Z.shiftl (u8 b4) 32)
                 (Z.lor (Z.shiftl (u8 b5) 40) (Z.lor (Z.shiftl (u8 b6) 48)
                 (Z.shiftl (u8 b7) 56)))))))
            | BigEndian =>
                Z.lor (u8 b7) (Z.lor (Z.shiftl (u8 b6) 8) (Z.lor (Z.shiftl (u8 b5) 16)
                 (Z.lor (Z.shiftl (u8 b4) 24) (Z.lor (Z.shiftl (u8 b3) 32)
                 (Z.lor (Z.shiftl (u8 b2) 40) (Z.lor (Z.shiftl (u8 b1) 48)
                 (Z.shiftl (u8 b0) 56)))))))
            end)
  | _ => Panicked IndexOutOfRange
  end.

(** ** The read-only methods *)

(** [correction]: [v] counts the registers that are still zero; the
    divisor [1 << 32] is positive. *)
Definition correction (c : Counter) (e : F64) : F64 :=
  if flt e ((2 / 5) * float64 (c_m c))%R then
    let v := fold_left (fun (v : R) reg => if reg =? 0 then (v + 1)%R else v)
                       (c_regs c) 0%R in
    if Req_dec_T v 0 then e
    else fmul (float64 (c_m c)) (Log10 (Finite (float64 (c_m c) / v)))
  else if fgt e ((1 / 30) * IZR (Z.shiftl 1 32))%R then
    fmul (- IZR (Z.shiftl 1 32)) (Log10 (fsub 1 (fdiv e (IZR (Z.shiftl 1 32)))))
  else e.

Definition Count (c : Counter) : F64 :=
  let z := fold_left (fun (z : R) reg => (z + Pow 2 (- float64 reg))%R)
                     (c_regs c) 0%R in
  let z := recip z in
  let e := fmul (c_alpha c * float64 (wrap64 (c_m c * c_m c))) z in
  correction c e.

Definition Error (c : Counter) : R := (1.04 * Sqrt (float64 (c_m c)))%R.

(** ** The float code on binary64 numbers *)

Module Binary64.

#[local] Set Warnings "-inexact-float".

(** [float64(n)] for a [uint64]: the nearest binary64 number.  Above
    [2^63] the last bit is folded into the one before it, which keeps
    the rounding, and the result is doubled. *)
Definition of_uint64 (n : Z) : float :=
  if n <? 2 ^ 63 then PrimFloat.of_uint63 (Uint63.of_Z n)
  else (2 * PrimFloat.of_uint63 (Uint63.of_Z (Z.lor (Z.shiftr n 1) (Z.land n 1))))%float.

(** [math.Pow(2, -float64(reg))] for a [uint8]: the power of two, which
    is a binary64 number. *)
Definition Pow2neg (reg : Z) : float := Z.ldexp 1%float (- reg).

Definition alpha (m : Z) : outcome float :=
  if m <? 16 then Panicked (PanicValue m)
  else if m <=? 32 then Done 0.673%float
  else if m <=? 64 then Done 0.697%float
  else if m <=? 128 then Done 0.709%float
  else Done (0.7213 / (1 + (1.079 / of_uint64 m)))%float.

Section WithLog10.

Variable Log10 : float -> float.

(** The constant expressions [2.0/5] and [(1.0/30)*(1<<32)] of the source
    are exact rationals, rounded once. *)
Definition correction (regs : list Z) (m : Z) (e : float) : float :=
  if (e <? 0.4 * of_uint64 m)%float then
    let v := fold_left (fun (v : float) reg => if reg =? 0 then (v + 1)%float else v)
                       regs 0%float in
    if negb (v =? 0)%float
    then (of_uint64 m * Log10 (of_uint64 m / v))%float
    else e
  else if (143165576.53333333333333333 <? e)%float then
    (-4294967296 * Log10 (1 - e / 4294967296))%float
  else e.

Definition Count (regs : list Z) (m : Z) (a : float) : float :=
  let z := fold_left (fun (z : float) reg => (z + Pow2neg reg)%float) regs 0%float in
  let z := (1 / z)%float in
  let e := (a * of_uint64 (wrap64 (m * m)) * z)%float in
  correction regs m e.

End WithLog10.

Definition Error (m : Z) : float := (1.04 * PrimFloat.sqrt (of_uint64 m))%float.

End Binary64.

(** ** A stand-in digest for worked examples *)

(** The worked examples below need some function of the type of
    [sha256.Sum256]; this one returns the first 32 bytes of its input,
    padded with zero bytes.  No property depends on it. *)
Definition prefix32 (src : list Byte.byte) : vec Byte.byte 32 :=
  fun_to_vec (fun i : fin 32 => default Byte.x00 (src !! fin_to_nat i)).

(** ** The operations on the store *)

Section WithPlatform.

(** [crypto/sha256.Sum256] returns a [[32]byte]; the byte order of
    [binary.NativeEndian] is the one of the machine. *)
Variable Sum256 : list Byte.byte -> vec Byte.byte 32.
Variable NativeEndian : ByteOrder.

(** The loop [for n = range dst { dst[n] = x[n] }] over the indices that
    are left; [n] is the named result. *)
Fixpoint sha_256_loop (x dst : list Byte.byte) (idxs : list nat) (n : Z)
  : outcome (list Byte.byte * Z) :=
  match idxs with
  | [] => Done (dst, n)
  | i :: idxs' =>
      match x !! i with
      | Some xi => sha_256_loop x (<[i := xi]> dst) idxs' (Z.of_nat i)
      | None => Panicked IndexOutOfRange
      end
  end.

Definition sha_256 : HashFunc := fun dst src =>
  let x := vec_to_list (Sum256 src) in
  sha_256_loop x dst (seq 0 (length dst)) 0.

Definition NewCounter (numRegisters : Z) : M (ret loc) :=
  if numRegisters <? minNumRegisters then mret (Err errNumRegistersTooSmall)
  else
    c ← alloc {| c_regs := [];
                 c_m := numRegisters;
                 c_b := uint64_of_float (Log2 (float64 numRegisters));
                 c_alpha := 0%R;
                 c_hash := Some sha_256;
                 c_hbuf := [] |};
    cv ← load c;
    a ← lift (alpha (c_m cv));
    store c (set_alpha a cv);;
    cv ← load c;
    store c (set_regs (replicate (Z.to_nat (c_m cv)) 0) cv);;
    cv ← load c;
    store c (set_hbuf (replicate 8 Byte.x00) cv);;
    mret (Ok c).

Definition Add (c : loc) (input : list Byte.byte) : M unit :=
  cv ← load c;
  hf ← lift (match c_hash cv with
             | Some f => Done f
             | None => Panicked NilDereference
             end);
  '(buf, _) ← lift (hf (c_hbuf cv) input);
  store c (set_hbuf buf cv);;
  cv ← load c;
  s ← lift (slice_to (c_hbuf cv) 8);
  v ← lift (Uint64 NativeEndian s);
  let i := Z.land v (wrap64 (wrap64 (Z.shiftl 1 (c_b cv)) - 1)) in
  cv ← load c;
  reg ← lift (index (c_regs cv) i);
  store c (set_regs (<[Z.to_nat i := Z.max reg (wrap8 (numZeroes v + 1))]> (c_regs cv)) cv).

(** The loop [for i, reg := range c.regs { merged.regs[i] = max(reg,
    other.regs[i]) }] over the indices that are left. *)
Fixpoint Merge_loop (c other merged : loc) (idxs : list nat) : M unit :=
  match idxs with
  | [] => mret tt
  | i :: idxs' =>
      cv ← load c;
      reg ← lift (index (c_regs cv) (Z.of_nat i));
      ov ← load other;
      oreg ← lift (index (c_regs ov) (Z.of_nat i));
      mv ← load merged;
      _ ← lift (index (c_regs mv) (Z.of_nat i));
      store merged (set_regs (<[i := Z.max reg oreg]> (c_regs mv)) mv);;
      Merge_loop c other merged idxs'
  end.

Definition Merge (c other : loc) : M (ret loc) :=
  ov ← load other;
  cv ← load c;
  if negb (c_m ov =? c_m cv) then mret (Err errMergeCounterMismatch)
  else
    r ← NewCounter (wrap32 (c_m cv));
    match r with
    | Err e => mret (Err e)
    | Ok merged =>
        cv ← load c;
        Merge_loop c other merged (seq 0 (length (c_regs cv)));;
        mret (Ok merged)
    end.

(** Calls of the read-only methods through a pointer. *)
Definition call_Count (c : loc) : M F64 := cv ← load c; mret (Count cv).
Definition call_Error (c : loc) : M R := cv ← load c; mret (Error cv).

(** ** Specification-side definitions *)

(** [k] is the number of leading zero bits of the 64-bit value [v],
    counted from bit 63 downwards: the [k] highest bits are clear and,
    unless all 64 are, the next one is set. *)
Definition leading_zeros (v k : Z) : Prop :=
  0 <= k <= 64 /\
  (forall j, 0 <= j < k -> Z.testbit v (63 - j) = false) /\
  (k < 64 -> Z.testbit v (63 - k) = true).

(** The constant as the specification words it: a step function of the
    register count. *)
Definition alpha_step (m : Z) : R :=
  if m <=? 32 then 0.673%R
  else if m <=? 64 then 0.697%R
  else if m <=? 128 then 0.709%R
  else (0.7213 / (1 + 1.079 / IZR m))%R.

(** The 64-bit value that [Add] decodes from the scratch buffer once the
    hash of [input] has been written to it. *)
Definition hash_value (input : list Byte.byte) : Z :=
  match Uint64 NativeEndian (take 8 (vec_to_list (Sum256 input))) with
  | Done v => v
  | Panicked _ => 0
  end.

(** The counter that [NewCounter] leaves in the store. *)
Definition fresh_counter (n : Z) : Counter :=
  {| c_regs := replicate (Z.to_nat n) 0;
     c_m := n;
     c_b := Z.log2 n;
     c_alpha := alpha_step n;
     c_hash := Some sha_256;
     c_hbuf := replicate 8 Byte.x00 |}.

(** The invariant of every counter built through the package's
    interface (see [reachable_wf]). *)
Record wf_counter (cv : Counter) : Prop := {
  wf_m : 16 <= c_m cv < 2 ^ 32;
  wf_len : length (c_regs cv) = Z.to_nat (c_m cv);
  wf_b : c_b cv = Z.log2 (c_m cv);
  wf_alpha : c_alpha cv = alpha_step (c_m cv);
  wf_hash : c_hash cv = Some sha_256;
  wf_hbuf : length (c_hbuf cv) = 8%nat;
  wf_regs : Forall (fun r => 0 <= r <= 65) (c_regs cv)
}.

Definition wf_heap (h : heap) : Prop :=
  forall c cv, h !! c = Some cv -> wf_counter cv.

(** The stores a client of the package can build: it starts from the
    empty store and calls [NewCounter] (on a [uint32]), [Add] and [Merge]
    on pointers; the read-only methods leave the store as it is. *)
Inductive reachable : heap -> Prop :=
| reachable_empty : reachable ∅
| reachable_NewCounter (n : Z) (h h' : heap) (r : ret loc) :
    reachable h -> 0 <= n < 2 ^ 32 ->
    NewCounter n h = Done (r, h') -> reachable h'
| reachable_Add (c : loc) (input : list Byte.byte) (h h' : heap) :
    reachable h -> Add c input h = Done (tt, h') -> reachable h'
| reachable_Merge (c other : loc) (h h' : heap) (r : ret loc) :
    reachable h -> Merge c other h = Done (r, h') -> reachable h'.

(** The registers of a merge: the maximum at every index. *)
Definition merged_regs (a b : list Z) : list Z := zip_with Z.max a b.

(** The state of the loop of [Merge] after the indices below [k]. *)
Definition merge_upto (k : nat) (a b r0 : list Z) : list Z :=
  take k (merged_regs a b) ++ drop k r0.

(** The counter [Merge] builds for two counters of [m] registers. *)
Definition merge_result (cv ov : Counter) : Counter :=
  set_regs (merged_regs (c_regs cv) (c_regs ov)) (fresh_counter (c_m cv)).

(** The counter a call of [Add] leaves behind, in the words of the
    specification: register [i] holds the maximum of its old value and
    the rank, where [mask] selects the index bits of the hash value. *)
Definition add_result (cv : Counter) (input : list Byte.byte) (mask : Z) : Counter :=
  let v := hash_value input in
  let i := Z.land v mask in
  let rank := numZeroes v + 1 in
  {| c_regs := <[Z.to_nat i := Z.max (default 0 (c_regs cv !! Z.to_nat i)) rank]> (c_regs cv);
     c_m := c_m cv;
     c_b := c_b cv;
     c_alpha := c_alpha cv;
     c_hash := c_hash cv;
     c_hbuf := take 8 (vec_to_list (Sum256 input)) |}.

(** Sequences of [Add] and [Count] calls on one counter. *)
Inductive call : Type :=
| CallAdd (input : list Byte.byte)
| CallCount.

Fixpoint run_calls (c : loc) (cs : list call) : M unit :=
  match cs with
  | [] => mret tt
  | CallAdd input :: cs' => Add c input;; run_calls c cs'
  | CallCount :: cs' => call_Count c;; run_calls c cs'
  end.

(** The raw estimate and the number of zero registers, as closed
    formulas over the register list. *)
Definition harmonic_sum (rs : list Z) : R :=
  foldr (fun r acc => (/ 2 ^ Z.to_nat r + acc)%R) 0%R rs.

Definition raw_estimate (cv : Counter) : R :=
  (c_alpha cv * (IZR (c_m cv) * IZR (c_m cv)) * (1 / harmonic_sum (c_regs cv)))%R.

Definition zero_registers (rs : list Z) : nat :=
  length (filter (fun r => r = 0) rs).

(** * Properties *)

(** ** The idealised [math] functions *)

Lemma Pow_2_neg (r : Z) : 0 <= r -> Pow 2 (- float64 r) = (/ 2 ^ Z.to_nat r)%R.
Proof.
  intros Hr. unfold Pow, float64.
  rewrite Rpower_Ropp, <- (Z2Nat.id r) at 1 by lia.
  rewrite <- INR_IZR_INZ, Rpower_pow by lra. reflexivity.
Qed.


Lemma Rlog10_1 : Rlog10 1 = 0%R.
Proof. unfold Rlog10. rewrite ln_1. unfold Rdiv. apply Rmult_0_l. Qed.

(** [math.Log10] by the sign of its argument. *)
Lemma Log10_pos (x : R) : (0 < x)%R -> Log10 (Finite x) = Finite (Rlog10 x).
Proof.
  intros Hx. unfold Log10. destruct (Rlt_dec 0 x); [reflexivity | contradiction].
Qed.

Lemma Log10_zero : Log10 (Finite 0) = NegInf.
Proof.
  unfold Log10. destruct (Rlt_dec 0 0) as [H|_]; [lra|].
  destruct (Req_dec_T 0 0) as [_|H]; [reflexivity | contradiction].
Qed.

Lemma Log10_negative (x : R) : (x < 0)%R -> Log10 (Finite x) = NaN.
Proof.
  intros Hx. unfold Log10. destruct (Rlt_dec 0 x) as [H|_]; [lra|].
  destruct (Req_dec_T x 0) as [H|_]; [lra | reflexivity].
Qed.

Lemma fmul_neg_NegInf (k : R) : (k < 0)%R -> fmul k NegInf = PosInf.
Proof.
  intros Hk. unfold fmul. destruct (Rlt_dec 0 k) as [H|_]; [lra|].
  destruct (Rlt_dec k 0) as [_|H]; [reflexivity | contradiction].
Qed.

Lemma recip_pos (z : R) : (0 < z)%R -> recip z = Finite (1 / z).
Proof.
  intros Hz. unfold recip. destruct (Req_dec_T z 0) as [H|_]; [lra | reflexivity].
Qed.

Lemma flt_Finite (x k : R) : flt (Finite x) k = true <-> (x < k)%R.
Proof. cbn. destruct (Rlt_dec x k); split; intros; try done. Qed.

Lemma fgt_Finite (x k : R) : fgt (Finite x) k = true <-> (x > k)%R.
Proof. cbn. destruct (Rgt_dec x k); split; intros; try done. Qed.

Lemma ln_2_pos : (0 < ln 2)%R.
Proof. pose proof ln_lt_2. lra. Qed.

(** The truncated binary logarithm of a positive integer is [Z.log2]. *)
Lemma uint64_Log2 (n : Z) : 1 <= n -> uint64_of_float (Log2 (float64 n)) = Z.log2 n.
Proof.
  intros Hn. unfold uint64_of_float, Log2, float64.
  pose proof ln_2_pos as H2.
  destruct (Z.log2_spec n ltac:(lia)) as [Hlo Hhi].
  pose proof (Z.log2_nonneg n) as Hk.
  set (k := Z.log2 n) in *.
  assert (Hpow : forall j : Z, 0 <= j -> ln (IZR (2 ^ j)) = (IZR j * ln 2)%R).
  { intros j Hj. rewrite <- (Z2Nat.id j) at 1 by lia.
    rewrite <- pow_IZR, ln_pow by lra.
    rewrite INR_IZR_INZ, Z2Nat.id by lia. reflexivity. }
  assert (Hl : (IZR k * ln 2 <= ln (IZR n))%R).
  { rewrite <- Hpow by lia. apply IZR_le in Hlo.
    destruct (Req_dec (IZR (2 ^ k)) (IZR n)) as [->|Hne]; [lra|].
    left. apply ln_increasing; [|lra]. apply IZR_lt. lia. }
  assert (Hu : (ln (IZR n) < IZR (k + 1) * ln 2)%R).
  { rewrite <- Hpow by lia. apply ln_increasing.
    - apply IZR_lt. lia.
    - apply IZR_lt. replace (k + 1) with (Z.succ k) by lia. exact Hhi. }
  rewrite plus_IZR in Hu.
  assert (Hq1 : (IZR k <= ln (IZR n) / ln 2)%R).
  { apply Rmult_le_reg_r with (ln 2); [done|]. field_simplify; lra. }
  assert (Hq2 : (ln (IZR n) / ln 2 < IZR k + 1)%R).
  { apply Rmult_lt_reg_r with (ln 2); [done|]. field_simplify; lra. }
  destruct (Rle_dec 0 (ln (IZR n) / ln 2)) as [_|Hneg].
  - symmetry. apply Int_part_spec. lra.
  - exfalso. apply Hneg. apply IZR_le in Hk. lra.
Qed.

(** ** [numZeroes] counts the leading zero bits of a 64-bit value *)

Lemma land_pow2 (v k : Z) :
  0 <= k -> Z.land v (2 ^ k) = if Z.testbit v k then 2 ^ k else 0.
Proof.
  intros Hk. apply Z.bits_inj'. intros n Hn.
  rewrite Z.land_spec, Z.pow2_bits_eqb by lia.
  destruct (Z.eqb_spec k n) as [->|Hne].
  - destruct (Z.testbit v n) eqn:Hv; simpl.
    + rewrite Z.pow2_bits_true; lia.
    + rewrite Z.bits_0. reflexivity.
  - rewrite andb_false_r. destruct (Z.testbit v k).
    + rewrite Z.pow2_bits_false; lia.
    + rewrite Z.bits_0. reflexivity.
Qed.

Lemma numZeroes_mask (i : Z) :
  0 <= i < 64 -> Z.shiftr (wrap64 (Z.shiftl 1 63)) i = 2 ^ (63 - i).
Proof.
  intros Hi. change (wrap64 (Z.shiftl 1 63)) with (2 ^ 63).
  rewrite Z.shiftr_div_pow2 by lia.
  rewrite Z.pow_sub_r by lia. reflexivity.
Qed.

Lemma numZeroes_test (v i : Z) :
  0 <= i < 64 ->
  negb (Z.land v (Z.shiftr (wrap64 (Z.shiftl 1 63)) i) =? 0) = Z.testbit v (63 - i).
Proof.
  intros Hi. rewrite numZeroes_mask, land_pow2 by lia.
  destruct (Z.testbit v (63 - i)); simpl.
  - assert (0 < 2 ^ (63 - i)) by (apply Z.pow_pos_nonneg; lia).
    destruct (Z.eqb_spec (2 ^ (63 - i)) 0); [lia | reflexivity].
  - reflexivity.
Qed.

Lemma numZeroes_loop_spec (v : Z) (fuel : nat) : forall i,
  0 <= i <= 64 ->
  64 - i < Z.of_nat fuel ->
  (forall j, 0 <= j < i -> Z.testbit v (63 - j) = false) ->
  leading_zeros v (numZeroes_loop fuel i v).
Proof.
  induction fuel as [|fuel IH]; intros i Hi Hfuel Hclear; [lia|].
  cbn [numZeroes_loop]. destruct (Z.ltb_spec i 64) as [Hlt|Hge].
  - rewrite numZeroes_test by lia.
    destruct (Z.testbit v (63 - i)) eqn:Hbit; cbn [negb].
    + repeat split; [lia | lia | exact Hclear | intros _; exact Hbit].
    + assert (Hw : wrap8 (i + 1) = i + 1).
      { unfold wrap8. apply Z.mod_small. lia. }
      rewrite Hw. apply IH; [lia | lia |].
      intros j Hj. destruct (Z.eq_dec j i) as [->|Hne]; [exact Hbit|].
      apply Hclear. lia.
  - assert (i = 64) as -> by lia.
    repeat split; [lia | lia | exact Hclear | lia].
Qed.

(** The fuel of [numZeroes] is never what stops the loop: more of it
    gives the same result. *)
Lemma numZeroes_loop_fuel (v : Z) (fuel : nat) : forall i,
  0 <= i <= 64 -> 64 - i < Z.of_nat fuel ->
  numZeroes_loop (S fuel) i v = numZeroes_loop fuel i v.
Proof.
  induction fuel as [|fuel IH]; intros i Hi Hfuel; [lia|].
  cbn [numZeroes_loop]. destruct (Z.ltb_spec i 64) as [Hlt|Hge]; [|reflexivity].
  destruct (negb _); [reflexivity|].
  assert (Hw : wrap8 (i + 1) = i + 1) by (unfold wrap8; apply Z.mod_small; lia).
  rewrite Hw. specialize (IH (i + 1) ltac:(lia) ltac:(lia)).
  cbn [numZeroes_loop] in IH. exact IH.
Qed.

Lemma numZeroes_leading_zeros (v : Z) : leading_zeros v (numZeroes v).
Proof.
  unfold numZeroes. apply numZeroes_loop_spec; [lia | lia |]. intros j Hj. lia.
Qed.

Lemma leading_zeros_unique (v k k' : Z) :
  leading_zeros v k -> leading_zeros v k' -> k = k'.
Proof.
  intros (Hk & Hclr & Hset) (Hk' & Hclr' & Hset').
  destruct (Z.lt_trichotomy k k') as [Hlt|[Heq|Hgt]]; [|exact Heq|].
  - specialize (Hset ltac:(lia)). rewrite Hclr' in Hset by lia. discriminate.
  - specialize (Hset' ltac:(lia)). rewrite Hclr in Hset' by lia. discriminate.
Qed.

Lemma leading_zeros_closed (v : Z) :
  0 <= v < 2 ^ 64 ->
  leading_zeros v (if v =? 0 then 64 else 63 - Z.log2 v).
Proof.
  intros Hv. destruct (Z.eqb_spec v 0) as [->|Hne].
  - repeat split; [lia | lia | | lia]. intros j _. apply Z.bits_0.
  - assert (Hpos : 0 < v) by lia.
    assert (Hlog : 0 <= Z.log2 v < 64).
    { split; [apply Z.log2_nonneg|]. apply Z.log2_lt_pow2; lia. }
    repeat split; [lia | lia | |].
    + intros j Hj. apply Z.bits_above_log2; lia.
    + intros _. replace (63 - (63 - Z.log2 v)) with (Z.log2 v) by lia.
      apply Z.bit_log2. exact Hpos.
Qed.

Lemma numZeroes_closed (v : Z) :
  0 <= v < 2 ^ 64 -> numZeroes v = if v =? 0 then 64 else 63 - Z.log2 v.
Proof.
  intros Hv. eapply leading_zeros_unique.
  - apply numZeroes_leading_zeros.
  - apply leading_zeros_closed. exact Hv.
Qed.

Lemma numZeroes_range (v : Z) : 0 <= numZeroes v <= 64.
Proof. apply numZeroes_leading_zeros. Qed.

Lemma rank_range (v : Z) :
  wrap8 (numZeroes v + 1) = numZeroes v + 1 /\ 1 <= numZeroes v + 1 <= 65.
Proof.
  pose proof (numZeroes_range v). split; [|lia].
  unfold wrap8. apply Z.mod_small. lia.
Qed.

(** ** [alpha]: the step function and its assertion *)

Lemma alpha_Done (m : Z) : 16 <= m -> alpha m = Done (alpha_step m).
Proof.
  intros Hm. unfold alpha, alpha_step, float64.
  destruct (Z.ltb_spec m 16); [lia|].
  repeat (destruct (_ <=? _); [reflexivity|]). reflexivity.
Qed.

Lemma alpha_Panicked (m : Z) : m < 16 -> alpha m = Panicked (PanicValue m).
Proof. intros Hm. unfold alpha. destruct (Z.ltb_spec m 16); [reflexivity | lia]. Qed.

Lemma alpha_step_bounds (m : Z) : 16 <= m -> (0.673 <= alpha_step m <= 0.7213)%R.
Proof.
  intros Hm. unfold alpha_step.
  destruct (Z.leb_spec m 32); [lra|].
  destruct (Z.leb_spec m 64); [lra|].
  destruct (Z.leb_spec m 128) as [|H128]; [lra|].
  assert (Hm' : (128 < IZR m)%R) by (apply IZR_lt; lia).
  assert (Hinv : (0 < 1.079 / IZR m < 1.079 / 128)%R).
  { split.
    - apply Rdiv_lt_0_compat; lra.
    - unfold Rdiv. apply Rmult_lt_compat_l; [lra|].
      apply Rinv_lt_contravar; lra. }
  split.
  - apply Rmult_le_reg_r with (1 + 1.079 / IZR m)%R; [lra|].
    unfold Rdiv at 2. rewrite Rmult_assoc, Rinv_l by lra. lra.
  - apply Rmult_le_reg_r with (1 + 1.079 / IZR m)%R; [lra|].
    unfold Rdiv at 1. rewrite Rmult_assoc, Rinv_l by lra. lra.
Qed.

(** ** The monad *)

Lemma bind_ret {A B} (a : A) (k : A -> M B) (h : heap) : (mret a ≫= k) h = k a h.
Proof. reflexivity. Qed.

Lemma bind_lift_Done {A B} (a : A) (k : A -> M B) (h : heap) :
  (lift (Done a) ≫= k) h = k a h.
Proof. reflexivity. Qed.

Lemma bind_load {B} (c : loc) (cv : Counter) (k : Counter -> M B) (h : heap) :
  h !! c = Some cv -> (load c ≫= k) h = k cv h.
Proof. intros H. unfold mbind, M_bind, load. rewrite H. reflexivity. Qed.

Lemma bind_load_None {B} (c : loc) (k : Counter -> M B) (h : heap) :
  h !! c = None -> (load c ≫= k) h = Panicked NilDereference.
Proof. intros H. unfold mbind, M_bind, load. rewrite H. reflexivity. Qed.

Lemma bind_store {B} (c : loc) (cv : Counter) (k : unit -> M B) (h : heap) :
  (store c cv ≫= k) h = k tt (<[c := cv]> h).
Proof. reflexivity. Qed.

Lemma bind_alloc {B} (cv : Counter) (k : loc -> M B) (h : heap) :
  (alloc cv ≫= k) h = k (fresh (dom h)) (<[fresh (dom h) := cv]> h).
Proof. reflexivity. Qed.

Lemma fresh_loc_None (h : heap) : h !! fresh (dom h) = None.
Proof. apply not_elem_of_dom. apply is_fresh. Qed.

Lemma index_Done {A} (s : list A) (i : nat) (x : A) :
  s !! i = Some x -> index s (Z.of_nat i) = Done x.
Proof.
  intros H. unfold index. pose proof (lookup_lt_Some _ _ _ H).
  destruct (Z.leb_spec 0 (Z.of_nat i)); [|lia].
  destruct (Z.ltb_spec (Z.of_nat i) (Z.of_nat (length s))); [|lia].
  cbn [andb]. rewrite Nat2Z.id, H. reflexivity.
Qed.

Lemma index_Z_Done {A} (s : list A) (i : Z) :
  0 <= i < Z.of_nat (length s) -> exists x, s !! Z.to_nat i = Some x /\ index s i = Done x.
Proof.
  intros Hi. destruct (lookup_lt_is_Some_2 s (Z.to_nat i)) as [x Hx]; [lia|].
  exists x. split; [exact Hx|].
  rewrite <- (Z2Nat.id i) by lia. apply index_Done. exact Hx.
Qed.

(** ** The hash strategy and the decoded value *)

Lemma sha_256_loop_seq (x : list Byte.byte) (n : nat) : forall (k : nat) dst n0,
  (k + n = length dst)%nat -> (k + n <= length x)%nat ->
  sha_256_loop x dst (seq k n) n0 =
    Done (take k dst ++ take n (drop k x),
          if n is O then n0 else Z.of_nat (k + n - 1)).
Proof.
  induction n as [|n IH]; intros k dst n0 Hdst Hx.
  - cbn. rewrite Nat.add_0_r in Hdst.
    rewrite app_nil_r, take_ge by lia. reflexivity.
  - cbn [seq sha_256_loop].
    destruct (lookup_lt_is_Some_2 x k ltac:(lia)) as [xi Hxi].
    rewrite Hxi, IH by (rewrite ?length_insert; lia).
    f_equal. f_equal.
    + rewrite (take_S_r _ k xi).
      * rewrite take_insert_ge by lia. rewrite <- app_assoc. cbn.
        rewrite (drop_S x xi k Hxi). reflexivity.
      * apply list_lookup_insert_eq. lia.
    + destruct n; f_equal; lia.
Qed.

Lemma sha_256_hbuf (dst src : list Byte.byte) :
  length dst = 8%nat ->
  sha_256 dst src = Done (take 8 (vec_to_list (Sum256 src)), 7).
Proof.
  intros Hdst. unfold sha_256. rewrite Hdst.
  rewrite (sha_256_loop_seq _ 8 0) by (rewrite ?length_vec_to_list; lia).
  reflexivity.
Qed.

Lemma u8_range (x : Byte.byte) : 0 <= u8 x < 2 ^ 8.
Proof. unfold u8. pose proof (Byte.to_N_bounded x). lia. Qed.

Lemma lor_range (n a b : Z) :
  0 <= n -> 0 <= a < 2 ^ n -> 0 <= b < 2 ^ n -> 0 <= Z.lor a b < 2 ^ n.
Proof.
  intros Hn Ha Hb.
  destruct (Z.eq_dec a 0) as [->|Ha0]; [rewrite Z.lor_0_l; exact Hb|].
  destruct (Z.eq_dec b 0) as [->|Hb0]; [rewrite Z.lor_0_r; exact Ha|].
  assert (Hnn : 0 <= Z.lor a b) by (apply Z.lor_nonneg; lia).
  split; [exact Hnn|].
  destruct (Z.eq_dec (Z.lor a b) 0) as [->|Hne]; [apply Z.pow_pos_nonneg; lia|].
  apply Z.log2_lt_pow2; [lia|]. rewrite Z.log2_lor by lia.
  apply Z.max_lub_lt; apply Z.log2_lt_pow2; lia.
Qed.

Lemma shiftl_u8_range (x : Byte.byte) (s : Z) :
  0 <= s <= 56 -> 0 <= Z.shiftl (u8 x) s < 2 ^ 64.
Proof.
  intros Hs. pose proof (u8_range x) as Hx.
  rewrite Z.shiftl_mul_pow2 by lia.
  assert (0 < 2 ^ s) by (apply Z.pow_pos_nonneg; lia).
  split; [nia|].
  apply Z.lt_le_trans with (2 ^ 8 * 2 ^ s); [nia|].
  rewrite <- Z.pow_add_r by lia. apply Z.pow_le_mono_r; lia.
Qed.

Lemma Uint64_range (order : ByteOrder) (bs : list Byte.byte) (v : Z) :
  Uint64 order bs = Done v -> 0 <= v < 2 ^ 64.
Proof.
  unfold Uint64.
  destruct bs as [|b0 [|b1 [|b2 [|b3 [|b4 [|b5 [|b6 [|b7 ?]]]]]]]]; try discriminate.
  intros [= <-].
  assert (H0 : forall x, 0 <= u8 x < 2 ^ 64) by (intros x; pose proof (u8_range x); lia).
  destruct order; repeat (apply lor_range; [lia | first [apply H0 | apply shiftl_u8_range; lia] |]);
    apply shiftl_u8_range; lia.
Qed.

Lemma Uint64_hash_value (input : list Byte.byte) :
  Uint64 NativeEndian (take 8 (vec_to_list (Sum256 input))) = Done (hash_value input).
Proof.
  unfold hash_value.
  assert (Hlen : length (take 8 (vec_to_list (Sum256 input))) = 8%nat).
  { rewrite length_take, length_vec_to_list. reflexivity. }
  destruct (take 8 (vec_to_list (Sum256 input)))
    as [|b0 [|b1 [|b2 [|b3 [|b4 [|b5 [|b6 [|b7 ?]]]]]]]]; try discriminate Hlen.
  reflexivity.
Qed.

Lemma hash_value_range (input : list Byte.byte) : 0 <= hash_value input < 2 ^ 64.
Proof. eapply Uint64_range. apply Uint64_hash_value. Qed.

(** ** [NewCounter] *)

Ltac run_step :=
  first
    [ rewrite bind_alloc
    | rewrite bind_store
    | rewrite bind_lift_Done
    | rewrite bind_ret
    | erewrite bind_load by
        first [ apply lookup_insert_eq | eassumption
              | rewrite lookup_insert_ne by congruence; eassumption ] ];
  cbv beta.

Lemma NewCounter_small (n : Z) (h : heap) :
  n < 16 -> NewCounter n h = Done (Err errNumRegistersTooSmall, h).
Proof.
  intros Hn. unfold NewCounter, minNumRegisters.
  destruct (Z.ltb_spec n 16); [reflexivity | lia].
Qed.

Lemma NewCounter_large (n : Z) (h : heap) :
  16 <= n ->
  NewCounter n h = Done (Ok (fresh (dom h)), <[fresh (dom h) := fresh_counter n]> h).
Proof.
  intros Hn. unfold NewCounter, minNumRegisters.
  destruct (Z.ltb_spec n 16); [lia|].
  run_step. run_step. cbn [c_m]. rewrite alpha_Done by lia.
  do 6 run_step.
  unfold set_hbuf, set_regs, set_alpha; cbn.
  rewrite !insert_insert_eq, uint64_Log2 by lia. reflexivity.
Qed.

Lemma fresh_counter_wf (n : Z) : 16 <= n < 2 ^ 32 -> wf_counter (fresh_counter n).
Proof.
  intros Hn. split; cbn; try done.
  - apply length_replicate.
  - apply Forall_replicate. lia.
Qed.

(** ** [Add] *)

Lemma index_mask (b : Z) :
  0 <= b < 64 -> wrap64 (wrap64 (Z.shiftl 1 b) - 1) = Z.ones b.
Proof.
  intros Hb. rewrite Z.ones_equiv, Z.shiftl_1_l. unfold wrap64.
  assert (0 < 2 ^ b < 2 ^ 64).
  { split; [apply Z.pow_pos_nonneg; lia | apply Z.pow_lt_mono_r; lia]. }
  rewrite (Z.mod_small (2 ^ b)) by lia. rewrite Z.mod_small by lia. lia.
Qed.

Lemma log2_bounds (m : Z) :
  16 <= m < 2 ^ 32 -> 4 <= Z.log2 m < 32 /\ 2 ^ Z.log2 m <= m.
Proof.
  intros Hm. destruct (Z.log2_spec m ltac:(lia)) as [Hlo Hhi]. repeat split.
  - change 4 with (Z.log2 16). apply Z.log2_le_mono. lia.
  - apply Z.log2_lt_pow2; lia.
  - exact Hlo.
Qed.

(** The index [Add] computes is below [2^b], hence below [m]. *)
Lemma index_in_bounds (cv : Counter) (v : Z) :
  wf_counter cv -> 0 <= v ->
  let i := Z.land v (wrap64 (wrap64 (Z.shiftl 1 (c_b cv)) - 1)) in
  i = v mod 2 ^ c_b cv /\ 0 <= i <= 2 ^ c_b cv - 1 /\ 2 ^ c_b cv - 1 <= c_m cv - 1.
Proof.
  intros Hwf Hv i. subst i. destruct Hwf as [Hm _ Hb _ _ _ _].
  destruct (log2_bounds _ Hm) as [Hlog Hpow]. rewrite Hb.
  rewrite index_mask, Z.land_ones by lia.
  pose proof (Z.mod_pos_bound v (2 ^ Z.log2 (c_m cv)) ltac:(apply Z.pow_pos_nonneg; lia)).
  repeat split; lia.
Qed.

Lemma Add_wf (c : loc) (cv : Counter) (input : list Byte.byte) (h : heap) :
  h !! c = Some cv -> wf_counter cv ->
  Add c input h =
    Done (tt, <[c := add_result cv input (wrap64 (wrap64 (Z.shiftl 1 (c_b cv)) - 1))]> h).
Proof.
  intros Hc Hwf. unfold Add.
  pose proof (hash_value_range input) as Hv.
  destruct (index_in_bounds cv (hash_value input) Hwf ltac:(lia)) as (_ & Hi & Hle).
  destruct Hwf as [Hm Hlen Hb Ha Hh Hbuf Hregs].
  run_step. rewrite Hh. run_step. rewrite sha_256_hbuf by exact Hbuf.
  run_step. run_step. run_step. cbn [c_hbuf set_hbuf].
  unfold slice_to. rewrite length_take, length_vec_to_list. cbn [Nat.min Nat.leb].
  run_step. rewrite take_take. cbn [Nat.min].
  rewrite Uint64_hash_value. run_step. run_step. cbn [c_regs c_b set_hbuf].
  destruct (index_Z_Done (c_regs cv)
              (Z.land (hash_value input) (wrap64 (wrap64 (Z.shiftl 1 (c_b cv)) - 1))))
    as (r & Hr & Hidx); [lia|].
  rewrite Hidx. run_step. unfold store.
  rewrite insert_insert_eq, (proj1 (rank_range _)).
  unfold add_result, set_regs. cbn [c_regs c_m c_b c_alpha c_hash c_hbuf].
  rewrite Hr. reflexivity.
Qed.

(** ** [Merge] *)

Lemma bind_Done {A B} (ma : M A) (k : A -> M B) (h h' : heap) (a : A) :
  ma h = Done (a, h') -> (ma ≫= k) h = k a h'.
Proof. intros H. unfold mbind, M_bind. rewrite H. reflexivity. Qed.

Lemma merged_regs_length (a b : list Z) :
  length a = length b -> length (merged_regs a b) = length a.
Proof. intros H. unfold merged_regs. rewrite length_zip_with. lia. Qed.

Lemma merged_regs_lookup (a b : list Z) (i : nat) (x y : Z) :
  a !! i = Some x -> b !! i = Some y -> merged_regs a b !! i = Some (Z.max x y).
Proof.
  intros Ha Hb. unfold merged_regs. rewrite lookup_zip_with, Ha, Hb. reflexivity.
Qed.

Lemma merge_upto_length (k : nat) (a b r0 : list Z) :
  length a = length b -> length r0 = length a -> (k <= length a)%nat ->
  length (merge_upto k a b r0) = length a.
Proof.
  intros Hab Hr Hk. unfold merge_upto.
  rewrite length_app, length_take, length_drop, merged_regs_length by done. lia.
Qed.

Lemma merge_upto_step (k : nat) (a b r0 : list Z) (x y : Z) :
  length a = length b -> length r0 = length a ->
  a !! k = Some x -> b !! k = Some y ->
  <[k := Z.max x y]> (merge_upto k a b r0) = merge_upto (S k) a b r0.
Proof.
  intros Hab Hr Ha Hb. unfold merge_upto.
  pose proof (lookup_lt_Some _ _ _ Ha) as Hk.
  pose proof (merged_regs_length a b Hab) as Hlen.
  destruct (lookup_lt_is_Some_2 r0 k ltac:(lia)) as [z Hz].
  rewrite insert_app_r_alt by (rewrite length_take; lia).
  rewrite length_take, Hlen, Nat.min_l, Nat.sub_diag by lia.
  rewrite (drop_S r0 z k Hz). cbn [insert list_insert].
  rewrite (take_S_r _ k _ (merged_regs_lookup a b k x y Ha Hb)).
  rewrite <- app_assoc. reflexivity.
Qed.

Lemma set_regs_id (cv : Counter) : set_regs (c_regs cv) cv = cv.
Proof. destruct cv; reflexivity. Qed.

Lemma set_regs_set_regs (r r' : list Z) (cv : Counter) :
  set_regs r (set_regs r' cv) = set_regs r cv.
Proof. reflexivity. Qed.

Section MergeLoop.

Variables (c other merged : loc) (cv ov : Counter) (h0 : heap) (r0 : list Z).
Hypothesis Hc : h0 !! c = Some cv.
Hypothesis Hother : h0 !! other = Some ov.
Hypothesis Hmerged : h0 !! merged = None.
Hypothesis Hlen : length (c_regs cv) = length (c_regs ov).
Hypothesis Hr0 : length r0 = length (c_regs cv).

(** The loop invariant: when the indices below [k] are done the
    registers of the new counter are [merge_upto k]; the two operands
    stay where they are. *)
Lemma Merge_loop_seq (n : nat) : forall (k : nat) (mv : Counter),
  (k + n <= length (c_regs cv))%nat ->
  c_regs mv = merge_upto k (c_regs cv) (c_regs ov) r0 ->
  Merge_loop c other merged (seq k n) (<[merged := mv]> h0) =
    Done (tt, <[merged := set_regs (merge_upto (k + n) (c_regs cv) (c_regs ov) r0) mv]> h0).
Proof using Hc Hother Hmerged Hlen Hr0.
  assert (Hne1 : merged <> c) by congruence.
  assert (Hne2 : merged <> other) by congruence.
  induction n as [|n IH]; intros k mv Hk Hmv.
  - cbn [seq Merge_loop]. rewrite Nat.add_0_r, <- Hmv, set_regs_id. reflexivity.
  - cbn [seq Merge_loop].
    destruct (lookup_lt_is_Some_2 (c_regs cv) k ltac:(lia)) as [x Hx].
    destruct (lookup_lt_is_Some_2 (c_regs ov) k ltac:(lia)) as [y Hy].
    assert (Hmk : is_Some (c_regs mv !! k)).
    { apply lookup_lt_is_Some_2. rewrite Hmv, merge_upto_length by lia. lia. }
    destruct Hmk as [z Hz].
    erewrite bind_load by (rewrite lookup_insert_ne by exact Hne1; exact Hc).
    rewrite (index_Done _ _ _ Hx). run_step.
    erewrite bind_load by (rewrite lookup_insert_ne by exact Hne2; exact Hother).
    rewrite (index_Done _ _ _ Hy). run_step.
    erewrite bind_load by apply lookup_insert_eq.
    rewrite (index_Done _ _ _ Hz). run_step. run_step.
    rewrite insert_insert_eq.
    rewrite IH.
    + rewrite set_regs_set_regs.
      replace (S k + n)%nat with (k + S n)%nat by lia. reflexivity.
    + lia.
    + cbn [c_regs set_regs]. rewrite Hmv. apply merge_upto_step; done.
Qed.

End MergeLoop.

Lemma merge_upto_all (a b r0 : list Z) :
  length a = length b -> length r0 = length a ->
  merge_upto (length a) a b r0 = merged_regs a b.
Proof.
  intros Hab Hr. unfold merge_upto.
  rewrite take_ge by (rewrite merged_regs_length; lia).
  rewrite drop_ge by lia. apply app_nil_r.
Qed.

Lemma Merge_mismatch (c other : loc) (cv ov : Counter) (h : heap) :
  h !! c = Some cv -> h !! other = Some ov -> c_m ov <> c_m cv ->
  Merge c other h = Done (Err errMergeCounterMismatch, h).
Proof.
  intros Hc Ho Hne. unfold Merge. run_step. run_step.
  destruct (Z.eqb_spec (c_m ov) (c_m cv)); [done | reflexivity].
Qed.

Lemma Merge_wf (c other : loc) (cv ov : Counter) (h : heap) :
  h !! c = Some cv -> h !! other = Some ov ->
  wf_counter cv -> wf_counter ov -> c_m ov = c_m cv ->
  Merge c other h =
    Done (Ok (fresh (dom h)), <[fresh (dom h) := merge_result cv ov]> h).
Proof.
  intros Hc Ho Hwc Hwo Hm. unfold Merge. run_step. run_step.
  destruct (Z.eqb_spec (c_m ov) (c_m cv)); [|done]. cbn [negb].
  destruct Hwc as [Hmc Hlc _ _ _ _ _]. destruct Hwo as [Hmo Hlo _ _ _ _ _].
  assert (Hw : wrap32 (c_m cv) = c_m cv) by (unfold wrap32; apply Z.mod_small; lia).
  rewrite Hw.
  rewrite (bind_Done _ _ _ _ _ (NewCounter_large (c_m cv) h ltac:(lia))).
  pose proof (fresh_loc_None h) as Hfresh.
  assert (Hne : fresh (dom h) <> c) by congruence.
  erewrite bind_load by (rewrite lookup_insert_ne by exact Hne; exact Hc).
  assert (Hlen : length (c_regs cv) = length (c_regs ov)) by (rewrite Hlc, Hlo, Hm; done).
  assert (Hr0 : length (replicate (Z.to_nat (c_m cv)) 0) = length (c_regs cv)).
  { rewrite length_replicate. lia. }
  erewrite bind_Done.
  2:{ apply (Merge_loop_seq c other (fresh (dom h)) cv ov h _ Hc Ho Hfresh Hlen Hr0
               (length (c_regs cv)) 0%nat); [lia | reflexivity]. }
  cbv beta. cbn [Nat.add]. rewrite merge_upto_all by done. reflexivity.
Qed.

(** ** The invariant holds in every reachable store *)

Lemma add_result_wf (cv : Counter) (input : list Byte.byte) :
  wf_counter cv ->
  wf_counter (add_result cv input (wrap64 (wrap64 (Z.shiftl 1 (c_b cv)) - 1))).
Proof.
  intros [Hm Hlen Hb Ha Hh Hbuf Hregs].
  split; cbn [add_result c_regs c_m c_b c_alpha c_hash c_hbuf]; try done.
  - rewrite length_insert. exact Hlen.
  - rewrite length_take, length_vec_to_list. reflexivity.
  - apply Forall_insert; [exact Hregs|].
    pose proof (numZeroes_range (hash_value input)). cbv beta.
    destruct (c_regs cv !! _) as [r|] eqn:Hr; cbn [default from_option]; unfold Datatypes.id.
    + pose proof (Forall_lookup_1 _ _ _ _ Hregs Hr) as Hr'. cbn beta in Hr'. lia.
    + lia.
Qed.

Lemma merged_regs_Forall (P : Z -> Prop) (a b : list Z) :
  Forall P a -> Forall P b -> Forall P (merged_regs a b).
Proof.
  intros Ha. revert b. induction Ha as [|x a Hx Ha IH]; intros b Hb; [constructor|].
  destruct Hb as [|y b Hy Hb]; [constructor|]. cbn. constructor.
  - destruct (Z.max_spec x y) as [[_ ->]|[_ ->]]; assumption.
  - apply IH. exact Hb.
Qed.

Lemma merge_result_wf (cv ov : Counter) :
  wf_counter cv -> wf_counter ov -> c_m ov = c_m cv -> wf_counter (merge_result cv ov).
Proof.
  intros [Hm Hlen _ _ _ _ Hregs] [Hm' Hlen' _ _ _ _ Hregs'] Heq.
  split; cbn [merge_result fresh_counter set_regs c_regs c_m c_b c_alpha c_hash c_hbuf];
    try done.
  - rewrite merged_regs_length; [exact Hlen | congruence].
  - apply merged_regs_Forall; assumption.
Qed.

Lemma wf_heap_insert (h : heap) (c : loc) (cv : Counter) :
  wf_heap h -> wf_counter cv -> wf_heap (<[c := cv]> h).
Proof.
  intros Hh Hcv c' cv' Hlook. destruct (decide (c = c')) as [->|Hne].
  - rewrite lookup_insert_eq in Hlook. congruence.
  - rewrite lookup_insert_ne in Hlook by exact Hne. eapply Hh, Hlook.
Qed.

Lemma load_is_Some {B} (c : loc) (k : Counter -> M B) (h h' : heap) (r : B) :
  (load c ≫= k) h = Done (r, h') -> exists cv, h !! c = Some cv.
Proof.
  intros H. destruct (h !! c) as [cv|] eqn:Hc; [eauto|].
  rewrite bind_load_None in H by exact Hc. discriminate.
Qed.

Theorem reachable_wf (h : heap) : reachable h -> wf_heap h.
Proof.
  induction 1 as [|n h h' r Hreach IH Hn Hnew
                  |c input h h' Hreach IH Hadd
                  |c other h h' r Hreach IH Hmerge].
  - intros c cv Hc. rewrite lookup_empty in Hc. discriminate.
  - destruct (Z.lt_ge_cases n 16) as [Hlt|Hge].
    + rewrite NewCounter_small in Hnew by exact Hlt.
      injection Hnew as _ <-. exact IH.
    + rewrite NewCounter_large in Hnew by exact Hge. injection Hnew as _ <-.
      apply wf_heap_insert; [exact IH | apply fresh_counter_wf; lia].
  - destruct (load_is_Some _ _ _ _ _ Hadd) as [cv Hc].
    rewrite (Add_wf c cv input h Hc (IH _ _ Hc)) in Hadd. injection Hadd as <-.
    apply wf_heap_insert; [exact IH | apply add_result_wf; eapply IH, Hc].
  - destruct (load_is_Some _ _ _ _ _ Hmerge) as [ov Ho].
    assert (exists cv, h !! c = Some cv) as [cv Hc].
    { unfold Merge in Hmerge. rewrite (bind_load _ _ _ _ Ho) in Hmerge.
      eapply load_is_Some, Hmerge. }
    destruct (Z.eq_dec (c_m ov) (c_m cv)) as [Heq|Hne].
    + rewrite (Merge_wf c other cv ov h Hc Ho (IH _ _ Hc) (IH _ _ Ho) Heq) in Hmerge.
      injection Hmerge as _ <-.
      apply wf_heap_insert; [exact IH | apply merge_result_wf; eauto].
    + rewrite (Merge_mismatch c other cv ov h Hc Ho Hne) in Hmerge.
      injection Hmerge as _ <-. exact IH.
Qed.

(** ** [Count]: the loops as closed formulas *)

Lemma harmonic_fold (rs : list Z) : forall z0 : R,
  Forall (fun r => 0 <= r) rs ->
  fold_left (fun (z : R) reg => (z + Pow 2 (- float64 reg))%R) rs z0
  = (z0 + harmonic_sum rs)%R.
Proof.
  induction rs as [|r rs IH]; intros z0 Hrs; cbn [fold_left harmonic_sum foldr].
  - lra.
  - inversion Hrs as [|? ? Hr Hrs']; subst.
    rewrite IH by exact Hrs'. rewrite Pow_2_neg by exact Hr.
    fold (harmonic_sum rs). lra.
Qed.

Lemma zero_fold (rs : list Z) : forall v0 : R,
  fold_left (fun (v : R) reg => if reg =? 0 then (v + 1)%R else v) rs v0
  = (v0 + INR (zero_registers rs))%R.
Proof.
  unfold zero_registers.
  induction rs as [|r rs IH]; intros v0; cbn [fold_left].
  - cbn. lra.
  - rewrite IH. rewrite filter_cons.
    destruct (Z.eqb_spec r 0) as [->|Hne].
    + rewrite decide_True by reflexivity. cbn [length]. rewrite S_INR. lra.
    + rewrite decide_False by exact Hne. reflexivity.
Qed.

Lemma harmonic_sum_bounds (rs : list Z) :
  (0 <= harmonic_sum rs <= INR (length rs))%R.
Proof.
  induction rs as [|r rs IH]; cbn [harmonic_sum foldr length].
  - cbn. lra.
  - fold (harmonic_sum rs). rewrite S_INR.
    assert (H1 : (1 <= 2 ^ Z.to_nat r)%R) by (apply pow_R1_Rle; lra).
    assert (H2 : (0 < / 2 ^ Z.to_nat r <= 1)%R).
    { split; [apply Rinv_0_lt_compat; lra|].
      rewrite <- Rinv_1. apply Rinv_le_contravar; lra. }
    lra.
Qed.

Lemma harmonic_sum_pos (rs : list Z) : rs <> [] -> (0 < harmonic_sum rs)%R.
Proof.
  destruct rs as [|r rs]; [done|]. intros _. cbn [harmonic_sum foldr].
  fold (harmonic_sum rs). pose proof (harmonic_sum_bounds rs).
  assert (0 < / 2 ^ Z.to_nat r)%R; [|lra].
  apply Rinv_0_lt_compat. apply pow_lt. lra.
Qed.

Lemma Count_raw (cv : Counter) :
  wf_counter cv -> Count cv = correction cv (Finite (raw_estimate cv)).
Proof.
  intros Hwf. pose proof Hwf as [Hm Hlen _ _ _ _ Hregs]. unfold Count, raw_estimate.
  rewrite harmonic_fold.
  2:{ eapply Forall_impl; [exact Hregs|]. cbn. intros; lia. }
  assert (Hw : wrap64 (c_m cv * c_m cv) = c_m cv * c_m cv).
  { unfold wrap64. apply Z.mod_small. nia. }
  assert (Hpos : (0 < harmonic_sum (c_regs cv))%R).
  { apply harmonic_sum_pos. intros Hnil. rewrite Hnil in Hlen. cbn in Hlen. lia. }
  rewrite Hw, Rplus_0_l, (recip_pos _ Hpos). unfold float64. rewrite mult_IZR.
  reflexivity.
Qed.

(** * Properties of the specification *)

(** ** Construction *)

(** C6. [NewCounter] fails with [errNumRegistersTooSmall] exactly when
    [numRegisters < 16] (so it fails on 8 and succeeds on 16); when it
    succeeds the store only gains the new counter, whose [m] is
    [numRegisters], whose [b] is the floor of the binary logarithm of
    [m], whose [alpha] is the step function of [m] and whose [m]
    registers are all zero. *)
Theorem NewCounter_contract (numRegisters : Z) (h : heap) :
  ((exists h', NewCounter numRegisters h = Done (Err errNumRegistersTooSmall, h'))
     <-> numRegisters < 16) /\
  (numRegisters < 16 ->
     NewCounter numRegisters h = Done (Err errNumRegistersTooSmall, h)) /\
  (16 <= numRegisters ->
     exists (c : loc) (cv : Counter),
       h !! c = None /\
       NewCounter numRegisters h = Done (Ok c, <[c := cv]> h) /\
       c_m cv = numRegisters /\
       2 ^ c_b cv <= c_m cv < 2 ^ (c_b cv + 1) /\
       c_alpha cv = alpha_step (c_m cv) /\
       c_regs cv = replicate (Z.to_nat numRegisters) 0 /\
       c_hash cv = Some sha_256) /\
  NewCounter 8 h = Done (Err errNumRegistersTooSmall, h) /\
  (exists c h', NewCounter 16 h = Done (Ok c, h')).
Proof.
  split; [|split; [|split; [|split]]].
  - split.
    + intros [h' H]. destruct (Z.lt_ge_cases numRegisters 16) as [Hlt|Hge]; [exact Hlt|].
      rewrite NewCounter_large in H by exact Hge. discriminate.
    + intros Hlt. exists h. apply NewCounter_small. exact Hlt.
  - apply NewCounter_small.
  - intros Hge. exists (fresh (dom h)), (fresh_counter numRegisters).
    split; [apply fresh_loc_None|]. split; [apply NewCounter_large; exact Hge|].
    cbn [fresh_counter c_m c_b c_alpha c_regs c_hash].
    repeat split; try reflexivity.
    + apply Z.log2_spec. lia.
    + replace (Z.log2 numRegisters + 1) with (Z.succ (Z.log2 numRegisters)) by lia.
      apply Z.log2_spec. lia.
  - apply NewCounter_small. lia.
  - eexists _, _. apply NewCounter_large. lia.
Qed.

(** C7. The assertion of [alpha] (a panic when [m < 16]) does not fire
    under [NewCounter]: the constructor returns its error before it
    would call [alpha] on such an [m], so no call of [NewCounter] panics;
    and neither does [Merge], which builds its result with [NewCounter],
    on counters that satisfy the invariant. *)
Theorem alpha_panic_unreachable :
  (forall m, m < 16 -> alpha m = Panicked (PanicValue m)) /\
  (forall m, 16 <= m -> alpha m = Done (alpha_step m)) /\
  (forall numRegisters h p, NewCounter numRegisters h <> Panicked p) /\
  (forall c other cv ov h p,
     h !! c = Some cv -> h !! other = Some ov -> wf_counter cv -> wf_counter ov ->
     Merge c other h <> Panicked p).
Proof.
  split; [exact alpha_Panicked|]. split; [exact alpha_Done|]. split.
  - intros n h p. destruct (Z.lt_ge_cases n 16) as [Hlt|Hge].
    + rewrite NewCounter_small by exact Hlt. discriminate.
    + rewrite NewCounter_large by exact Hge. discriminate.
  - intros c other cv ov h p Hc Ho Hwc Hwo.
    destruct (Z.eq_dec (c_m ov) (c_m cv)) as [Heq|Hne].
    + rewrite (Merge_wf c other cv ov h Hc Ho Hwc Hwo Heq). discriminate.
    + rewrite (Merge_mismatch c other cv ov h Hc Ho Hne). discriminate.
Qed.

(** ** [Add] *)

(** C10. For every counter that satisfies the invariant, whether or not
    its [m] is a power of two, the index [i] that [Add] computes
    satisfies [i <= 2^b - 1 <= m - 1]: the register access is in bounds
    and [Add] returns without a panic. *)
Theorem Add_index_in_bounds (c : loc) (cv : Counter) (input : list Byte.byte) (h : heap) :
  h !! c = Some cv -> wf_counter cv ->
  let v := hash_value input in
  let i := Z.land v (wrap64 (wrap64 (Z.shiftl 1 (c_b cv)) - 1)) in
  0 <= i <= 2 ^ c_b cv - 1 /\
  2 ^ c_b cv - 1 <= c_m cv - 1 /\
  is_Some (c_regs cv !! Z.to_nat i) /\
  exists cv', Add c input h = Done (tt, <[c := cv']> h).
Proof.
  intros Hc Hwf v i.
  pose proof (hash_value_range input) as Hv.
  destruct (index_in_bounds cv v Hwf ltac:(subst v; lia)) as (_ & Hi & Hle).
  fold i in Hi. split; [exact Hi|]. split; [exact Hle|]. split.
  - apply lookup_lt_is_Some_2. rewrite (wf_len _ Hwf). pose proof (wf_m _ Hwf). lia.
  - eexists. exact (Add_wf c cv input h Hc Hwf).
Qed.

(** C5. For a counter that satisfies the invariant and whose [m] is a
    power of two, [Add] decodes the 64-bit hash value [v] of the element,
    takes the index [i = v AND (m - 1)], which is the low [b] bits of
    [v], and the rank [numZeroes v + 1], where [numZeroes v] is the
    number of leading zero bits of [v] (so the rank is 65 when [v] is
    zero), and stores [max(regs[i], rank)] in register [i].  The other
    registers, [m], [b], [alpha] and the hash strategy are as before, and
    so is every other counter of the store; the scratch buffer [hbuf],
    which the specification leaves out of the sketch, holds the first
    eight bytes of the hash. *)
Theorem Add_spec (c : loc) (cv : Counter) (input : list Byte.byte) (h : heap) (k : Z) :
  h !! c = Some cv -> wf_counter cv -> c_m cv = 2 ^ k ->
  let v := hash_value input in
  let i := Z.land v (c_m cv - 1) in
  let rank := numZeroes v + 1 in
  0 <= v < 2 ^ 64 /\
  i = v mod 2 ^ c_b cv /\
  leading_zeros v (rank - 1) /\
  (v = 0 -> rank = 65) /\
  exists (reg : Z) (cv' : Counter),
    c_regs cv !! Z.to_nat i = Some reg /\
    Add c input h = Done (tt, <[c := cv']> h) /\
    c_regs cv' = <[Z.to_nat i := Z.max reg rank]> (c_regs cv) /\
    c_m cv' = c_m cv /\ c_b cv' = c_b cv /\ c_alpha cv' = c_alpha cv /\
    c_hash cv' = c_hash cv /\
    c_hbuf cv' = take 8 (vec_to_list (Sum256 input)).
Proof.
  intros Hc Hwf Hpow v i rank.
  pose proof (hash_value_range input) as Hv. fold v in Hv.
  pose proof (wf_m _ Hwf) as Hm. pose proof (wf_b _ Hwf) as Hb.
  assert (Hk : 0 <= k).
  { destruct (Z.lt_ge_cases k 0) as [Hneg|]; [|assumption].
    rewrite Z.pow_neg_r in Hpow by exact Hneg. lia. }
  assert (Hbk : c_b cv = k) by (rewrite Hb, Hpow; apply Z.log2_pow2; exact Hk).
  assert (Hmask : wrap64 (wrap64 (Z.shiftl 1 (c_b cv)) - 1) = c_m cv - 1).
  { destruct (log2_bounds _ Hm). rewrite index_mask by lia.
    rewrite Z.ones_equiv, Hbk, Hpow. lia. }
  destruct (index_in_bounds cv v Hwf ltac:(lia)) as (Hmod & Hi & Hle).
  rewrite Hmask in Hmod, Hi. fold i in Hmod, Hi.
  split; [exact Hv|]. split; [exact Hmod|]. split.
  { subst rank. replace (numZeroes v + 1 - 1) with (numZeroes v) by lia.
    apply numZeroes_leading_zeros. }
  split.
  { intros Hv0. subst rank. rewrite numZeroes_closed by exact Hv.
    rewrite Hv0. reflexivity. }
  destruct (lookup_lt_is_Some_2 (c_regs cv) (Z.to_nat i)) as [reg Hreg].
  { rewrite (wf_len _ Hwf). lia. }
  exists reg, (add_result cv input (c_m cv - 1)).
  split; [exact Hreg|]. split.
  { rewrite <- Hmask. exact (Add_wf c cv input h Hc Hwf). }
  cbn [add_result c_regs c_m c_b c_alpha c_hash c_hbuf].
  fold v. fold i. rewrite Hreg. repeat split; reflexivity.
Qed.

(** ** [Merge] *)

Lemma merged_regs_comm (a b : list Z) : merged_regs a b = merged_regs b a.
Proof.
  unfold merged_regs. revert b.
  induction a as [|x a IH]; intros [|y b]; cbn; try reflexivity.
  rewrite Z.max_comm, IH. reflexivity.
Qed.

Lemma merged_regs_assoc (a b c : list Z) :
  merged_regs (merged_regs a b) c = merged_regs a (merged_regs b c).
Proof.
  unfold merged_regs. revert b c.
  induction a as [|x a IH]; intros [|y b] [|z c]; cbn; try reflexivity.
  rewrite Z.max_assoc, IH. reflexivity.
Qed.

Lemma merged_regs_idem (a : list Z) : merged_regs a a = a.
Proof.
  unfold merged_regs. induction a as [|x a IH]; cbn; [reflexivity|].
  rewrite Z.max_id, IH. reflexivity.
Qed.

(** C3. On two counters that satisfy the invariant, [Merge] fails with
    [errMergeCounterMismatch] exactly when their [m] differ, and then
    leaves the store as it is; otherwise it returns a new counter with
    the [m], [b] and [alpha] of its operands and, at every index, the
    maximum of their two registers. *)
Theorem Merge_contract (c other : loc) (cv ov : Counter) (h : heap) :
  h !! c = Some cv -> h !! other = Some ov -> wf_counter cv -> wf_counter ov ->
  ((exists h', Merge c other h = Done (Err errMergeCounterMismatch, h'))
     <-> c_m cv <> c_m ov) /\
  (c_m cv <> c_m ov -> Merge c other h = Done (Err errMergeCounterMismatch, h)) /\
  (c_m cv = c_m ov ->
     exists (merged : loc) (mv : Counter),
       h !! merged = None /\
       Merge c other h = Done (Ok merged, <[merged := mv]> h) /\
       c_m mv = c_m cv /\ c_b mv = c_b cv /\ c_alpha mv = c_alpha cv /\
       c_hash mv = c_hash cv /\
       length (c_regs mv) = Z.to_nat (c_m cv) /\
       forall i : nat, (i < Z.to_nat (c_m cv))%nat ->
         exists x y, c_regs cv !! i = Some x /\ c_regs ov !! i = Some y /\
                     c_regs mv !! i = Some (Z.max x y)).
Proof.
  intros Hc Ho Hwc Hwo. split; [|split].
  - split.
    + intros [h' H] Heq.
      rewrite (Merge_wf c other cv ov h Hc Ho Hwc Hwo (eq_sym Heq)) in H. discriminate.
    + intros Hne. exists h. apply (Merge_mismatch c other cv ov); auto.
  - intros Hne. apply (Merge_mismatch c other cv ov); auto.
  - intros Heq. exists (fresh (dom h)), (merge_result cv ov).
    split; [apply fresh_loc_None|].
    split; [apply Merge_wf; auto|].
    pose proof (wf_len _ Hwc) as Hlc. pose proof (wf_len _ Hwo) as Hlo.
    assert (Hlen : length (c_regs cv) = length (c_regs ov)) by congruence.
    cbn [merge_result fresh_counter set_regs c_regs c_m c_b c_alpha c_hash].
    split; [reflexivity|]. split; [symmetry; apply (wf_b _ Hwc)|].
    split; [symmetry; apply (wf_alpha _ Hwc)|].
    split; [symmetry; apply (wf_hash _ Hwc)|].
    split; [rewrite merged_regs_length; assumption|].
    intros i Hi.
    destruct (lookup_lt_is_Some_2 (c_regs cv) i ltac:(lia)) as [x Hx].
    destruct (lookup_lt_is_Some_2 (c_regs ov) i ltac:(lia)) as [y Hy].
    exists x, y. split; [exact Hx|]. split; [exact Hy|].
    apply merged_regs_lookup; assumption.
Qed.

(** C8. [Merge] leaves its operands as they were: when it returns, with
    a counter or with an error, the two operands, and every other counter
    that was in the store, are still there with every field unchanged;
    and on counters that satisfy the invariant it does return. *)
Theorem Merge_frame (c other : loc) (cv ov : Counter) (h : heap) :
  h !! c = Some cv -> h !! other = Some ov -> wf_counter cv -> wf_counter ov ->
  exists (r : ret loc) (h' : heap),
    Merge c other h = Done (r, h') /\
    h' !! c = Some cv /\ h' !! other = Some ov /\
    (forall l x, h !! l = Some x -> h' !! l = Some x).
Proof.
  intros Hc Ho Hwc Hwo.
  destruct (Z.eq_dec (c_m ov) (c_m cv)) as [Heq|Hne].
  - exists (Ok (fresh (dom h))), (<[fresh (dom h) := merge_result cv ov]> h).
    split; [exact (Merge_wf c other cv ov h Hc Ho Hwc Hwo Heq)|].
    pose proof (fresh_loc_None h) as Hfresh.
    assert (Hkeep : forall l x, h !! l = Some x ->
              <[fresh (dom h) := merge_result cv ov]> h !! l = Some x).
    { intros l x Hl. rewrite lookup_insert_ne by congruence. exact Hl. }
    split; [exact (Hkeep _ _ Hc)|]. split; [exact (Hkeep _ _ Ho)|]. exact Hkeep.
  - exists (Err errMergeCounterMismatch), h.
    split; [exact (Merge_mismatch c other cv ov h Hc Ho Hne)|].
    split; [exact Hc|]. split; [exact Ho|]. intros l x Hl. exact Hl.
Qed.

(** C4. On counters of equal [m] that satisfy the invariant, [Merge] is
    commutative, associative and idempotent on the registers: the
    results of [Merge(a, b)] and [Merge(b, a)] have the same register
    list, so have [Merge(Merge(a, b), c)] and [Merge(a, Merge(b, c))],
    and the registers of [Merge(a, a)] are those of [a]. *)
Theorem Merge_algebra (a b c : loc) (av bv cv : Counter) (h : heap) :
  h !! a = Some av -> h !! b = Some bv -> h !! c = Some cv ->
  wf_counter av -> wf_counter bv -> wf_counter cv ->
  c_m av = c_m bv -> c_m bv = c_m cv ->
  (exists ab hab abv ba hba bav,
     Merge a b h = Done (Ok ab, hab) /\ hab !! ab = Some abv /\
     Merge b a h = Done (Ok ba, hba) /\ hba !! ba = Some bav /\
     c_regs abv = c_regs bav) /\
  (exists ab h1 ab_c h2 ab_cv bc h3 a_bc h4 a_bcv,
     Merge a b h = Done (Ok ab, h1) /\ Merge ab c h1 = Done (Ok ab_c, h2) /\
     h2 !! ab_c = Some ab_cv /\
     Merge b c h = Done (Ok bc, h3) /\ Merge a bc h3 = Done (Ok a_bc, h4) /\
     h4 !! a_bc = Some a_bcv /\
     c_regs ab_cv = c_regs a_bcv) /\
  (exists aa haa aav,
     Merge a a h = Done (Ok aa, haa) /\ haa !! aa = Some aav /\
     c_regs aav = c_regs av).
Proof.
  intros Ha Hb Hc Hwa Hwb Hwc Hab Hbc.
  pose proof (fresh_loc_None h) as Hfresh.
  assert (Hkeep : forall l x mv, h !! l = Some x ->
            <[fresh (dom h) := mv]> h !! l = Some x).
  { intros l x mv Hl. rewrite lookup_insert_ne by congruence. exact Hl. }
  split; [|split].
  - eexists _, _, _, _, _, _.
    split; [apply (Merge_wf a b av bv); eauto|].
    split; [apply lookup_insert_eq|].
    split; [apply (Merge_wf b a bv av); eauto|].
    split; [apply lookup_insert_eq|].
    cbn [merge_result set_regs c_regs]. apply merged_regs_comm.
  - eexists _, _, _, _, _, _, _, _, _, _.
    split; [apply (Merge_wf a b av bv); eauto|].
    split.
    { apply (Merge_wf _ c (merge_result av bv) cv).
      - apply lookup_insert_eq.
      - apply Hkeep, Hc.
      - apply merge_result_wf; eauto.
      - exact Hwc.
      - cbn [merge_result set_regs fresh_counter c_m]. congruence. }
    split; [apply lookup_insert_eq|].
    split; [apply (Merge_wf b c bv cv); eauto|].
    split.
    { apply (Merge_wf a _ av (merge_result bv cv)).
      - apply Hkeep, Ha.
      - apply lookup_insert_eq.
      - exact Hwa.
      - apply merge_result_wf; eauto.
      - cbn [merge_result set_regs fresh_counter c_m]. congruence. }
    split; [apply lookup_insert_eq|].
    cbn [merge_result set_regs c_regs]. apply merged_regs_assoc.
  - eexists _, _, _.
    split; [apply (Merge_wf a a av av); eauto|].
    split; [apply lookup_insert_eq|].
    cbn [merge_result set_regs c_regs]. apply merged_regs_idem.
Qed.

(** ** [Count] and [Error] *)

#[local] Set Warnings "-inexact-float".

Lemma harmonic_sum_replicate (k : nat) : harmonic_sum (replicate k 0) = INR k.
Proof.
  induction k as [|k IH]; [reflexivity|].
  cbn [replicate harmonic_sum foldr]. fold (harmonic_sum (replicate k 0)).
  rewrite IH, S_INR. change (Z.to_nat 0) with 0%nat. rewrite pow_O, Rinv_1. lra.
Qed.

Lemma wf_registers_INR (cv : Counter) :
  wf_counter cv -> INR (length (c_regs cv)) = IZR (c_m cv) /\ (16 <= IZR (c_m cv))%R.
Proof.
  intros Hwf. pose proof (wf_m _ Hwf) as Hm. split.
  - rewrite (wf_len _ Hwf), INR_IZR_INZ, Z2Nat.id by lia. reflexivity.
  - apply IZR_le. lia.
Qed.

(** The raw estimate of a counter with [m] registers is at least
    [alpha * m]: every register contributes at most 1 to the sum. *)
Lemma raw_estimate_lower (cv : Counter) :
  wf_counter cv -> (c_alpha cv * IZR (c_m cv) <= raw_estimate cv)%R.
Proof.
  intros Hwf. destruct (wf_registers_INR cv Hwf) as [Hlen Hm16].
  pose proof (harmonic_sum_bounds (c_regs cv)) as [_ Hub]. rewrite Hlen in Hub.
  assert (Hpos : (0 < harmonic_sum (c_regs cv))%R).
  { apply harmonic_sum_pos. intros Hnil. rewrite Hnil in Hlen. cbn in Hlen. lra. }
  pose proof (alpha_step_bounds (c_m cv) ltac:(pose proof (wf_m _ Hwf); lia)) as Ha.
  rewrite <- (wf_alpha _ Hwf) in Ha.
  unfold raw_estimate.
  set (s := harmonic_sum (c_regs cv)) in *. set (m := IZR (c_m cv)) in *.
  set (a := c_alpha cv) in *.
  assert (Hq : (1 <= m * (1 / s))%R).
  { unfold Rdiv. rewrite Rmult_1_l.
    apply Rmult_le_reg_r with s; [exact Hpos|].
    rewrite Rmult_assoc, Rinv_l by lra. lra. }
  replace (a * (m * m) * (1 / s))%R with (a * m * (m * (1 / s)))%R by ring.
  assert (Ham : (0 <= a * m)%R) by (apply Rmult_le_pos; lra).
  rewrite <- (Rmult_1_r (a * m)) at 1.
  apply Rmult_le_compat_l; assumption.
Qed.

(** The small-range test of [correction] never succeeds on the raw
    estimate of a counter that satisfies the invariant: the estimate is
    at least [0.673 * m], above [(2/5) * m]. *)
Lemma small_range_unreachable (cv : Counter) :
  wf_counter cv -> ~ (raw_estimate cv < 2 / 5 * float64 (c_m cv))%R.
Proof.
  intros Hwf Hlt. pose proof (raw_estimate_lower cv Hwf) as Hlow.
  destruct (wf_registers_INR cv Hwf) as [_ Hm16].
  pose proof (alpha_step_bounds (c_m cv) ltac:(pose proof (wf_m _ Hwf); lia)) as Ha.
  rewrite <- (wf_alpha _ Hwf) in Ha. unfold float64 in Hlt.
  assert ((0.673 * IZR (c_m cv) <= c_alpha cv * IZR (c_m cv))%R).
  { apply Rmult_le_compat_r; lra. }
  lra.
Qed.

Lemma Rlog10_neg (x : R) : (0 < x < 1)%R -> (Rlog10 x < 0)%R.
Proof.
  intros [H0 H1]. unfold Rlog10.
  assert (Hln : (ln x < 0)%R) by (rewrite <- ln_1; apply ln_increasing; lra).
  assert (H10 : (0 < ln 10)%R) by (rewrite <- ln_1; apply ln_increasing; lra).
  assert (Hinv : (0 < / ln 10)%R) by (apply Rinv_0_lt_compat; exact H10).
  unfold Rdiv. nra.
Qed.


(** *** The branches of [correction], for any estimate and any counter *)

Section Correction.

Variables (cv : Counter) (e : R).

Let m : R := IZR (c_m cv).
Let V : R := INR (zero_registers (c_regs cv)).
Let T : R := IZR (2 ^ 32).

Lemma correction_unfold :
  correction cv (Finite e) =
    if Rlt_dec e (2 / 5 * m) then
      if Req_dec_T V 0 then Finite e else fmul m (Log10 (Finite (m / V)))
    else if Rgt_dec e (1 / 30 * T) then fmul (- T) (Log10 (Finite (1 - e / T)))
    else Finite e.
Proof.
  unfold correction, flt, fgt, fsub, fdiv, float64. rewrite zero_fold, Rplus_0_l.
  change (Z.shiftl 1 32) with (2 ^ 32). fold m V T.
  destruct (Rlt_dec e (2 / 5 * m)); [reflexivity|].
  destruct (Rgt_dec e (1 / 30 * T)); reflexivity.
Qed.



Lemma correction_large :
  ~ (e < 2 / 5 * m)%R -> (e > 1 / 30 * T)%R ->
  correction cv (Finite e) = fmul (- T) (Log10 (Finite (1 - e / T))).
Proof.
  intros He Hl. rewrite correction_unfold.
  destruct (Rlt_dec e (2 / 5 * m)) as [H|_]; [contradiction|].
  destruct (Rgt_dec e (1 / 30 * T)) as [_|Hn]; [reflexivity | contradiction].
Qed.

Lemma correction_mid :
  ~ (e < 2 / 5 * m)%R -> ~ (e > 1 / 30 * T)%R -> correction cv (Finite e) = Finite e.
Proof.
  intros He Hl. rewrite correction_unfold.
  destruct (Rlt_dec e (2 / 5 * m)) as [H|_]; [contradiction|].
  destruct (Rgt_dec e (1 / 30 * T)) as [H|_]; [contradiction | reflexivity].
Qed.


(** The large-range value is finite below [2^32], plus infinity at
    [2^32] and NaN above. *)
Lemma large_range_value :
  ((e < T)%R ->
     fmul (- T) (Log10 (Finite (1 - e / T))) = Finite (- T * Rlog10 (1 - e / T))) /\
  (e = T -> fmul (- T) (Log10 (Finite (1 - e / T))) = PosInf) /\
  ((T < e)%R -> fmul (- T) (Log10 (Finite (1 - e / T))) = NaN).
Proof.
  assert (HT : (0 < T)%R) by (apply IZR_lt; lia).
  assert (Hq : (e / T * T = e)%R) by (field; lra).
  split; [|split].
  - intros He. rewrite Log10_pos; [reflexivity|].
    assert (e / T < 1)%R; [|lra].
    apply Rmult_lt_reg_r with T; [exact HT|]. lra.
  - intros ->. replace (1 - T / T)%R with 0%R by (field; lra).
    rewrite Log10_zero. apply fmul_neg_NegInf. lra.
  - intros He. rewrite Log10_negative; [reflexivity|].
    assert (1 < e / T)%R; [|lra].
    apply Rmult_lt_reg_r with T; [exact HT|]. lra.
Qed.

(** On the special values: NaN and plus infinity give NaN, minus
    infinity takes the small-range branch. *)
Lemma correction_special :
  correction cv NaN = NaN /\
  correction cv PosInf = NaN /\
  (V = 0%R -> correction cv NegInf = NegInf) /\
  (V <> 0%R -> correction cv NegInf = fmul m (Log10 (Finite (m / V)))).
Proof.
  unfold correction, flt, fgt, fsub, fdiv, float64. rewrite zero_fold, Rplus_0_l.
  fold m V. repeat split.
  - intros HV. destruct (Req_dec_T V 0); [reflexivity | contradiction].
  - intros HV. destruct (Req_dec_T V 0); [contradiction | reflexivity].
Qed.

End Correction.

(** The count of a counter whose registers are all zero: the raw estimate
    [alpha * m], or its large-range correction; never zero. *)
Lemma Count_fresh_counter (n : Z) :
  16 <= n < 2 ^ 32 ->
  raw_estimate (fresh_counter n) = (alpha_step n * IZR n)%R /\
  ((alpha_step n * IZR n <= 1 / 30 * IZR (2 ^ 32))%R ->
     Count (fresh_counter n) = Finite (alpha_step n * IZR n)) /\
  (exists x : R, Count (fresh_counter n) = Finite x /\ (0 < x)%R).
Proof.
  intros Hn. pose proof (fresh_counter_wf n Hn) as Hwf.
  pose proof (alpha_step_bounds n ltac:(lia)) as Ha.
  assert (Hn16 : (16 <= IZR n)%R) by (apply IZR_le; lia).
  assert (Hn32 : (IZR n < IZR (2 ^ 32))%R) by (apply IZR_lt; lia).
  assert (Hraw : raw_estimate (fresh_counter n) = (alpha_step n * IZR n)%R).
  { unfold raw_estimate. cbn [fresh_counter c_alpha c_m c_regs].
    rewrite harmonic_sum_replicate, INR_IZR_INZ, Z2Nat.id by lia.
    field. lra. }
  assert (Hpos : (0 < alpha_step n * IZR n)%R) by (apply Rmult_lt_0_compat; lra).
  assert (Hns : ~ (raw_estimate (fresh_counter n) < 2 / 5 * IZR (c_m (fresh_counter n)))%R)
    by exact (small_range_unreachable _ Hwf).
  rewrite (Count_raw _ Hwf). split; [exact Hraw|].
  destruct (Rgt_dec (raw_estimate (fresh_counter n)) (1 / 30 * IZR (2 ^ 32)))
    as [Hlarge|Hmid].
  - rewrite (correction_large _ _ Hns Hlarge). rewrite Hraw in *.
    split; [intros Hle; lra|].
    assert (H32 : (0 < IZR (2 ^ 32))%R) by (apply IZR_lt; lia).
    assert (Hlt : (alpha_step n * IZR n < IZR (2 ^ 32))%R).
    { assert (alpha_step n * IZR n <= 0.7213 * IZR n)%R
        by (apply Rmult_le_compat_r; lra).
      lra. }
    rewrite (proj1 (large_range_value (alpha_step n * IZR n)) Hlt).
    eexists. split; [reflexivity|].
    set (x := (1 - alpha_step n * IZR n / IZR (2 ^ 32))%R).
    assert (Hx : (0 < x < 1)%R).
    { subst x.
      assert (Hq : (0 < alpha_step n * IZR n / IZR (2 ^ 32) < 1)%R).
      { split; [apply Rdiv_lt_0_compat; lra|].
        apply Rmult_lt_reg_r with (IZR (2 ^ 32)); [exact H32|].
        unfold Rdiv. rewrite Rmult_assoc, Rinv_l by lra. lra. }
      lra. }
    pose proof (Rlog10_neg x Hx) as Hlog.
    replace (- IZR (2 ^ 32) * Rlog10 x)%R with (IZR (2 ^ 32) * - Rlog10 x)%R by ring.
    apply Rmult_lt_0_compat; lra.
  - rewrite (correction_mid _ _ Hns Hmid), Hraw.
    split; [intros _; reflexivity|]. eexists. split; [reflexivity | exact Hpos].
Qed.

(** What the small-range correction would give on registers that are
    all zero, were it applied: [V = m] and [m * log10(m / m) = 0]. *)
Lemma small_range_value_fresh (n : Z) :
  1 <= n ->
  zero_registers (replicate (Z.to_nat n) 0) = Z.to_nat n /\
  fmul (IZR n)
       (Log10 (Finite (IZR n / INR (zero_registers (replicate (Z.to_nat n) 0%Z)))))
    = Finite 0.
Proof.
  intros Hn.
  assert (Hz : forall k, zero_registers (replicate k 0) = k).
  { unfold zero_registers. induction k as [|k IH]; [reflexivity|].
    cbn [replicate]. rewrite filter_cons, decide_True by reflexivity.
    cbn [length]. rewrite IH. reflexivity. }
  rewrite Hz. split; [reflexivity|].
  rewrite INR_IZR_INZ, Z2Nat.id by lia.
  assert (IZR n <> 0)%R by (apply not_0_IZR; lia).
  unfold Rdiv. rewrite Rinv_r by assumption.
  rewrite Log10_pos by lra. rewrite Rlog10_1. cbn [fmul]. f_equal. ring.
Qed.

(** C1. The count of a counter fresh from [NewCounter 16] is not zero:
    all sixteen registers are zero, the raw estimate is
    [0.673 * 16 = 10.768], which is not below [(2/5) * 16], so the
    small-range correction is skipped and [Count] returns 10.768.  The
    same holds bit for bit on binary64 numbers, whatever [math.Log10]
    computes. *)
Theorem Count_fresh_16 (h : heap) :
  (exists (c : loc) (cv : Counter),
     NewCounter 16 h = Done (Ok c, <[c := cv]> h) /\
     c_regs cv = replicate 16 0 /\
     Count cv = Finite 10.768%R /\
     Count cv <> Finite 0%R) /\
  (forall log10 : float -> float,
     Binary64.alpha 16 = Done 0.673%float /\
     Binary64.Count log10 (replicate 16 0) 16 0.673%float = 10.768%float /\
     (10.768 =? 0)%float = false).
Proof.
  split.
  - exists (fresh (dom h)), (fresh_counter 16).
    split; [apply NewCounter_large; lia|]. split; [reflexivity|].
    destruct (Count_fresh_counter 16 ltac:(lia)) as (_ & Hval & _).
    assert (Hc : Count (fresh_counter 16) = Finite 10.768%R).
    { rewrite Hval.
      - unfold alpha_step. cbn [Z.leb Z.compare Pos.compare Pos.compare_cont].
        f_equal. lra.
      - unfold alpha_step. cbn [Z.leb Z.compare Pos.compare Pos.compare_cont].
        change (2 ^ 32) with 4294967296. lra. }
    rewrite Hc. split; [reflexivity|]. intros [= Heq]. lra.
  - intros log10. repeat split; vm_compute; reflexivity.
Qed.


Lemma call_Count_Done (c : loc) (cv : Counter) (h : heap) :
  h !! c = Some cv -> call_Count c h = Done (Count cv, h).
Proof. intros Hc. unfold call_Count. rewrite (bind_load _ _ _ _ Hc). reflexivity. Qed.

Lemma call_Error_Done (c : loc) (cv : Counter) (h : heap) :
  h !! c = Some cv -> call_Error c h = Done (Error cv, h).
Proof. intros Hc. unfold call_Error. rewrite (bind_load _ _ _ _ Hc). reflexivity. Qed.

Lemma run_calls_wf (c : loc) (cs : list call) : forall (cv : Counter) (h : heap),
  h !! c = Some cv -> wf_counter cv ->
  exists h' cv', run_calls c cs h = Done (tt, h') /\ h' !! c = Some cv' /\
                 wf_counter cv' /\ c_m cv' = c_m cv.
Proof.
  induction cs as [|[input|] cs IH]; intros cv h Hc Hwf; cbn [run_calls].
  - exists h, cv. auto.
  - rewrite (bind_Done _ _ _ _ _ (Add_wf c cv input h Hc Hwf)).
    destruct (IH _ _ (lookup_insert_eq h c _) (add_result_wf cv input Hwf))
      as (h' & cv' & Hrun & Hc' & Hwf' & Hm).
    exists h', cv'. auto.
  - rewrite (bind_Done _ _ _ _ _ (call_Count_Done c cv h Hc)).
    exact (IH cv h Hc Hwf).
Qed.

(** C9. [Error] returns [1.04 * sqrt(m)]; the value depends on [m]
    alone, and it is the same after any sequence of [Add] and [Count]
    calls on the counter. *)
Theorem Error_spec (c : loc) (cv : Counter) (cs : list call) (h : heap) :
  h !! c = Some cv -> wf_counter cv ->
  Error cv = (1.04 * sqrt (IZR (c_m cv)))%R /\
  (forall cv2, c_m cv2 = c_m cv -> Error cv2 = Error cv) /\
  exists h' cv',
    run_calls c cs h = Done (tt, h') /\ h' !! c = Some cv' /\
    c_m cv' = c_m cv /\
    call_Error c h' = Done ((1.04 * sqrt (IZR (c_m cv)))%R, h').
Proof.
  intros Hc Hwf. split; [reflexivity|]. split.
  - intros cv2 Hm. unfold Error. rewrite Hm. reflexivity.
  - destruct (run_calls_wf c cs cv h Hc Hwf) as (h' & cv' & Hrun & Hc' & _ & Hm).
    exists h', cv'. repeat split; try assumption.
    rewrite (call_Error_Done c cv' h' Hc'). unfold Error, Sqrt, float64.
    rewrite Hm. reflexivity.
Qed.

(** The scratch buffer carries nothing from one call to the next: two
    counters that differ in it alone get the same registers from [Add]
    and from [Merge] and the same results from [Count] and [Error]. *)
Lemma hbuf_is_scratch (cv ov : Counter) (buf input : list Byte.byte) (mask : Z) :
  add_result (set_hbuf buf cv) input mask = add_result cv input mask /\
  merge_result (set_hbuf buf cv) ov = merge_result cv ov /\
  merge_result ov (set_hbuf buf cv) = merge_result ov cv /\
  Count (set_hbuf buf cv) = Count cv /\
  Error (set_hbuf buf cv) = Error cv.
Proof. repeat split. Qed.

End WithPlatform.

(** * Worked examples *)

(** Counters of sixteen registers, and a store that holds three of
    them. *)
Abbreviation ctr16 rs := (set_regs rs (fresh_counter prefix32 16)).
Abbreviation regsA := [1; 0; 2; 0; 0; 0; 0; 0; 0; 5; 0; 0; 0; 0; 0; 0].
Abbreviation regsB := [0; 3; 1; 0; 0; 0; 0; 0; 0; 2; 0; 0; 0; 0; 0; 7].
Abbreviation regsC := [4; 0; 0; 0; 0; 0; 0; 0; 0; 0; 0; 0; 0; 0; 9; 0].
Abbreviation store3 :=
  (<[3%positive := ctr16 regsC]> (<[2%positive := ctr16 regsB]>
    (<[1%positive := ctr16 regsA]> (∅ : gmap positive Counter)))).

Lemma ctr16_wf (rs : list Z) :
  length rs = 16%nat -> Forall (fun r => 0 <= r <= 65) rs ->
  wf_counter prefix32 (ctr16 rs).
Proof.
  intros Hlen Hrs. split; cbn; try reflexivity; try assumption. lia.
Defined.

Lemma regsA_wf : wf_counter prefix32 (ctr16 regsA).
Proof. apply ctr16_wf; [reflexivity | repeat constructor; lia]. Defined.

Lemma regsB_wf : wf_counter prefix32 (ctr16 regsB).
Proof. apply ctr16_wf; [reflexivity | repeat constructor; lia]. Defined.

Lemma regsC_wf : wf_counter prefix32 (ctr16 regsC).
Proof. apply ctr16_wf; [reflexivity | repeat constructor; lia]. Defined.

(** A counter of twenty registers: not a power of two. *)
Lemma fresh20_wf : wf_counter prefix32 (fresh_counter prefix32 20).
Proof. apply fresh_counter_wf. lia. Defined.

(** [NewCounter_contract] at 20 registers in the empty store. *)
Lemma NewCounter_contract_witness :
  ((exists h', NewCounter prefix32 20 ∅ = Done (Err errNumRegistersTooSmall, h'))
     <-> 20 < 16) /\
  (20 < 16 -> NewCounter prefix32 20 ∅ = Done (Err errNumRegistersTooSmall, ∅)) /\
  (16 <= 20 ->
     exists (c : positive) (cv : Counter),
       (∅ : gmap positive Counter) !! c = None /\
       NewCounter prefix32 20 ∅ = Done (Ok c, <[c := cv]> ∅) /\
       c_m cv = 20 /\
       2 ^ c_b cv <= c_m cv < 2 ^ (c_b cv + 1) /\
       c_alpha cv = alpha_step (c_m cv) /\
       c_regs cv = replicate (Z.to_nat 20) 0 /\
       c_hash cv = Some (sha_256 prefix32)) /\
  NewCounter prefix32 8 ∅ = Done (Err errNumRegistersTooSmall, ∅) /\
  (exists c h', NewCounter prefix32 16 ∅ = Done (Ok c, h')).
Proof. exact (NewCounter_contract prefix32 20 ∅). Defined.

(** [alpha_panic_unreachable], with its last part at the first two
    counters of [store3]. *)
Lemma alpha_panic_unreachable_witness :
  alpha 8 = Panicked (PanicValue 8) /\
  alpha 16 = Done (alpha_step 16) /\
  NewCounter prefix32 16 ∅ <> Panicked (PanicValue 16) /\
  Merge prefix32 1%positive 2%positive store3 <> Panicked (PanicValue 16).
Proof.
  destruct (alpha_panic_unreachable prefix32) as (H1 & H2 & H3 & H4).
  split; [apply H1; lia|]. split; [apply H2; lia|]. split; [apply H3|].
  apply (H4 1%positive 2%positive (ctr16 regsA) (ctr16 regsB));
    [reflexivity | reflexivity | exact regsA_wf | exact regsB_wf].
Defined.

(** [Add_index_in_bounds] at a counter of twenty registers. *)
Lemma Add_index_in_bounds_witness :
  let h : gmap positive Counter := {[ 1%positive := fresh_counter prefix32 20 ]} in
  let cv := fresh_counter prefix32 20 in
  let input := [Byte.x61; Byte.x62; Byte.x63] in
  h !! 1%positive = Some cv /\ wf_counter prefix32 cv /\
  let v := hash_value prefix32 LittleEndian input in
  let i := Z.land v (wrap64 (wrap64 (Z.shiftl 1 (c_b cv)) - 1)) in
  0 <= i <= 2 ^ c_b cv - 1 /\
  2 ^ c_b cv - 1 <= c_m cv - 1 /\
  is_Some (c_regs cv !! Z.to_nat i) /\
  exists cv', Add LittleEndian 1%positive input h = Done (tt, <[1%positive := cv']> h).
Proof.
  intros h cv input. split; [reflexivity|]. split; [exact fresh20_wf|].
  apply (Add_index_in_bounds prefix32 LittleEndian 1%positive cv input h);
    [reflexivity | exact fresh20_wf].
Defined.

(** [Add_spec] at the first counter of [store3], [m = 16 = 2^4]. *)
Lemma Add_spec_witness :
  let cv := ctr16 regsA in
  let input := [Byte.x61; Byte.x62; Byte.x63] in
  store3 !! 1%positive = Some cv /\ wf_counter prefix32 cv /\ c_m cv = 2 ^ 4 /\
  let v := hash_value prefix32 LittleEndian input in
  let i := Z.land v (c_m cv - 1) in
  let rank := numZeroes v + 1 in
  0 <= v < 2 ^ 64 /\
  i = v mod 2 ^ c_b cv /\
  leading_zeros v (rank - 1) /\
  (v = 0 -> rank = 65) /\
  exists (reg : Z) (cv' : Counter),
    c_regs cv !! Z.to_nat i = Some reg /\
    Add LittleEndian 1%positive input store3
      = Done (tt, <[1%positive := cv']> store3) /\
    c_regs cv' = <[Z.to_nat i := Z.max reg rank]> (c_regs cv) /\
    c_m cv' = c_m cv /\ c_b cv' = c_b cv /\ c_alpha cv' = c_alpha cv /\
    c_hash cv' = c_hash cv /\
    c_hbuf cv' = take 8 (vec_to_list (prefix32 input)).
Proof.
  intros cv input. split; [reflexivity|]. split; [exact regsA_wf|]. split; [reflexivity|].
  apply (Add_spec prefix32 LittleEndian 1%positive cv input store3 4);
    [reflexivity | exact regsA_wf | reflexivity].
Defined.

(** [Merge_contract] at the first two counters of [store3]. *)
Lemma Merge_contract_witness :
  let cv := ctr16 regsA in
  let ov := ctr16 regsB in
  store3 !! 1%positive = Some cv /\ store3 !! 2%positive = Some ov /\
  wf_counter prefix32 cv /\ wf_counter prefix32 ov /\
  ((exists h', Merge prefix32 1%positive 2%positive store3
                 = Done (Err errMergeCounterMismatch, h'))
     <-> c_m cv <> c_m ov) /\
  (c_m cv <> c_m ov ->
     Merge prefix32 1%positive 2%positive store3
       = Done (Err errMergeCounterMismatch, store3)) /\
  (c_m cv = c_m ov ->
     exists (merged : positive) (mv : Counter),
       store3 !! merged = None /\
       Merge prefix32 1%positive 2%positive store3
         = Done (Ok merged, <[merged := mv]> store3) /\
       c_m mv = c_m cv /\ c_b mv = c_b cv /\ c_alpha mv = c_alpha cv /\
       c_hash mv = c_hash cv /\
       length (c_regs mv) = Z.to_nat (c_m cv) /\
       forall i : nat, (i < Z.to_nat (c_m cv))%nat ->
         exists x y, c_regs cv !! i = Some x /\ c_regs ov !! i = Some y /\
                     c_regs mv !! i = Some (Z.max x y)).
Proof.
  intros cv ov. split; [reflexivity|]. split; [reflexivity|].
  split; [exact regsA_wf|]. split; [exact regsB_wf|].
  apply (Merge_contract prefix32 1%positive 2%positive cv ov store3);
    [reflexivity | reflexivity | exact regsA_wf | exact regsB_wf].
Defined.

(** [Merge_frame] at the first two counters of [store3]. *)
Lemma Merge_frame_witness :
  let cv := ctr16 regsA in
  let ov := ctr16 regsB in
  store3 !! 1%positive = Some cv /\ store3 !! 2%positive = Some ov /\
  wf_counter prefix32 cv /\ wf_counter prefix32 ov /\
  exists (r : ret positive) (h' : gmap positive Counter),
    Merge prefix32 1%positive 2%positive store3 = Done (r, h') /\
    h' !! 1%positive = Some cv /\ h' !! 2%positive = Some ov /\
    (forall l x, store3 !! l = Some x -> h' !! l = Some x).
Proof.
  intros cv ov. split; [reflexivity|]. split; [reflexivity|].
  split; [exact regsA_wf|]. split; [exact regsB_wf|].
  apply (Merge_frame prefix32 1%positive 2%positive cv ov store3);
    [reflexivity | reflexivity | exact regsA_wf | exact regsB_wf].
Defined.

(** [Merge_algebra] at the three counters of [store3]. *)
Lemma Merge_algebra_witness :
  let a := 1%positive in let b := 2%positive in let c := 3%positive in
  let av := ctr16 regsA in let bv := ctr16 regsB in let cv := ctr16 regsC in
  let h := store3 in
  h !! a = Some av /\ h !! b = Some bv /\ h !! c = Some cv /\
  wf_counter prefix32 av /\ wf_counter prefix32 bv /\ wf_counter prefix32 cv /\
  c_m av = c_m bv /\ c_m bv = c_m cv /\
  (exists ab hab abv ba hba bav,
     Merge prefix32 a b h = Done (Ok ab, hab) /\ hab !! ab = Some abv /\
     Merge prefix32 b a h = Done (Ok ba, hba) /\ hba !! ba = Some bav /\
     c_regs abv = c_regs bav) /\
  (exists ab h1 ab_c h2 ab_cv bc h3 a_bc h4 a_bcv,
     Merge prefix32 a b h = Done (Ok ab, h1) /\
     Merge prefix32 ab c h1 = Done (Ok ab_c, h2) /\
     h2 !! ab_c = Some ab_cv /\
     Merge prefix32 b c h = Done (Ok bc, h3) /\
     Merge prefix32 a bc h3 = Done (Ok a_bc, h4) /\
     h4 !! a_bc = Some a_bcv /\
     c_regs ab_cv = c_regs a_bcv) /\
  (exists aa haa aav,
     Merge prefix32 a a h = Done (Ok aa, haa) /\ haa !! aa = Some aav /\
     c_regs aav = c_regs av).
Proof.
  intros a b c av bv cv h.
  split; [reflexivity|]. split; [reflexivity|]. split; [reflexivity|].
  split; [exact regsA_wf|]. split; [exact regsB_wf|]. split; [exact regsC_wf|].
  split; [reflexivity|]. split; [reflexivity|].
  apply (Merge_algebra prefix32 a b c av bv cv h);
    [reflexivity | reflexivity | reflexivity
    | exact regsA_wf | exact regsB_wf | exact regsC_wf | reflexivity | reflexivity].
Defined.

(** Three counters of sixteen registers for [Count_formula]: [regsB]
    has twelve zero registers and a raw estimate of about 13.4; with all
    registers at 24 the raw estimate is [0.673 * 16 * 2^24], about 180.7
    million, above [(1/30) * 2^32]; with all registers at 29 it is
    [0.673 * 16 * 2^29], about 5.78 billion, above [2^32]. *)
Abbreviation regs24 := (replicate 16 24).
Abbreviation regs29 := (replicate 16 29).









(** [Error_spec] at the first counter of [store3], after two [Add]
    calls with a [Count] call between them. *)
Lemma Error_spec_witness :
  let cv := ctr16 regsA in
  let cs := [CallAdd [Byte.x61]; CallCount; CallAdd [Byte.x62; Byte.x63]] in
  store3 !! 1%positive = Some cv /\ wf_counter prefix32 cv /\
  Error cv = (1.04 * sqrt (IZR (c_m cv)))%R /\
  (forall cv2, c_m cv2 = c_m cv -> Error cv2 = Error cv) /\
  exists h' cv',
    run_calls LittleEndian 1%positive cs store3 = Done (tt, h') /\
    h' !! 1%positive = Some cv' /\
    c_m cv' = c_m cv /\
    call_Error 1%positive h' = Done ((1.04 * sqrt (IZR (c_m cv)))%R, h').
Proof.
  intros cv cs. split; [reflexivity|]. split; [exact regsA_wf|].
  apply (Error_spec prefix32 LittleEndian 1%positive cv cs store3);
    [reflexivity | exact regsA_wf].
Defined.

(** ** Evaluations *)

Example numZeroes_values :
  numZeroes 0 = 64 /\ numZeroes 1 = 63 /\ numZeroes (2 ^ 60) = 3 /\
  numZeroes (2 ^ 63) = 0 /\ numZeroes (2 ^ 64 - 1) = 0.
Proof. repeat split; vm_compute; reflexivity. Qed.

(** With the stand-in digest the scratch buffer receives the first eight
    bytes of the input; on a little-endian machine the bytes
    [05 00 00 00 00 00 00 10] decode to [0x1000000000000005], whose low
    four bits are 5 and which has three leading zero bits. *)
Example hash_value_example :
  let input := [Byte.x05; Byte.x00; Byte.x00; Byte.x00;
                Byte.x00; Byte.x00; Byte.x00; Byte.x10] in
  hash_value prefix32 LittleEndian input = 1152921504606846981 /\
  hash_value prefix32 BigEndian input = 360287970189639696 /\
  Z.land (hash_value prefix32 LittleEndian input) (16 - 1) = 5 /\
  numZeroes (hash_value prefix32 LittleEndian input) + 1 = 4.
Proof. repeat split; vm_compute; reflexivity. Qed.

Example Add_example :
  let input := [Byte.x05; Byte.x00; Byte.x00; Byte.x00;
                Byte.x00; Byte.x00; Byte.x00; Byte.x10] in
  Add LittleEndian 1%positive input {[ 1%positive := fresh_counter prefix32 16 ]}
  = Done (tt, {[ 1%positive :=
        {| c_regs := [0; 0; 0; 0; 0; 4; 0; 0; 0; 0; 0; 0; 0; 0; 0; 0];
           c_m := 16; c_b := 4; c_alpha := alpha_step 16;
           c_hash := Some (sha_256 prefix32);
           c_hbuf := input |} ]}).
Proof.
  intros input.
  rewrite (Add_wf prefix32 LittleEndian 1%positive (fresh_counter prefix32 16) input);
    [| reflexivity | apply fresh_counter_wf; lia].
  rewrite insert_singleton_eq. reflexivity.
Qed.

(** Adding the same element again changes no register. *)
Example Add_twice_example :
  let input := [Byte.x05; Byte.x00; Byte.x00; Byte.x00;
                Byte.x00; Byte.x00; Byte.x00; Byte.x10] in
  (Add LittleEndian 1%positive input ;; Add LittleEndian 1%positive input)
    {[ 1%positive := fresh_counter prefix32 16 ]}
  = Add LittleEndian 1%positive input {[ 1%positive := fresh_counter prefix32 16 ]}.
Proof. intros input. reflexivity. Qed.

Example Merge_example :
  exists merged : positive,
    store3 !! merged = None /\
    Merge prefix32 1%positive 2%positive store3
    = Done (Ok merged,
            <[merged := ctr16 [1; 3; 2; 0; 0; 0; 0; 0; 0; 5; 0; 0; 0; 0; 0; 7]]> store3).
Proof.
  exists (fresh (dom store3)). split; [apply fresh_loc_None|].
  rewrite (Merge_wf prefix32 1%positive 2%positive (ctr16 regsA) (ctr16 regsB));
    [reflexivity | reflexivity | reflexivity | exact regsA_wf | exact regsB_wf | reflexivity].
Qed.

Example Merge_mismatch_example :
  let h : gmap positive Counter :=
    <[2%positive := fresh_counter prefix32 32]> {[ 1%positive := fresh_counter prefix32 16 ]} in
  Merge prefix32 1%positive 2%positive h = Done (Err errMergeCounterMismatch, h).
Proof. intros h. reflexivity. Qed.

#[local] Set Warnings "-inexact-float".

(** Fresh counters on binary64 numbers: the count is the raw estimate
    [alpha * m], never zero, for the register counts of every branch of
    [alpha]. *)
Example Binary64_Count_fresh (Log10 : float -> float) :
  Binary64.Count Log10 (replicate 32 0) 32 0.673%float = 21.536%float /\
  Binary64.Count Log10 (replicate 64 0) 64 0.697%float = 44.608%float /\
  Binary64.Count Log10 (replicate 128 0) 128 0.709%float = 90.752%float /\
  Binary64.alpha 1024 = Done 0.7205407583220416%float /\
  Binary64.Count Log10 (replicate 1024 0) 1024 0.7205407583220416%float
    = 737.8337365217706%float.
Proof. repeat split; vm_compute; reflexivity. Qed.

Example Binary64_Error : Binary64.Error 16 = 4.16%float /\ Binary64.Error 1024 = 33.28%float.
Proof. split; vm_compute; reflexivity. Qed.


(** The zero value [Counter{}] was not built by [NewCounter]: its sum
    [z] is empty, [1 / z] is plus infinity, and [0 * 0 * +Inf] is NaN,
    which fails both comparisons of [correction] and is returned. *)
Example Count_zero_value :
  Count {| c_regs := []; c_m := 0; c_b := 0; c_alpha := 0%R;
           c_hash := None; c_hbuf := [] |} = NaN.
Proof.
  unfold Count. cbn [c_regs c_m c_alpha fold_left]. unfold recip.
  destruct (Req_dec_T 0 0) as [_|H]; [|contradiction].
  assert (Hk : (0 * float64 (wrap64 (0 * 0)))%R = 0%R) by apply Rmult_0_l.
  cbv zeta. rewrite Hk. unfold fmul.
  destruct (Rlt_dec 0 0) as [H|_]; [lra|].
  apply correction_special.
Qed.
